(** * Little Red Rover firmware: motor driver and socket manager

    A shallow embedding of
      components/drive_base_driver/motor_driver.c
      components/socket_mgr/socket_mgr.c
    together with the properties of the design document that concern them.

    C [float] and [double] values are IEEE-754 binary32 and binary64 numbers,
    represented with the [spec_float] type of the standard library and its
    operations at precision 24 and 53.  C [int] is a 32-bit two's complement
    integer carried by a [Z].  The peripherals (LEDC PWM, pulse counter) are
    an explicit hardware state that the driver functions transform; the
    two socket tasks are functions of what the queue and the network hand
    them, and yield the events they cause. *)

From Stdlib Require Import ZArith List Bool Lia SpecFloat.
From stdpp Require Import base option strings gmap.
Import ListNotations.

Local Open Scope Z_scope.

(* ===================================================================== *)
(** * C scalar types *)
(* ===================================================================== *)

(** ** 32-bit signed integers *)

Module CInt.

Definition modulus : Z := 2 ^ 32.
Definition half_modulus : Z := 2 ^ 31.

(** Reduction of a mathematical integer into the range of [int]. *)
Definition wrap (z : Z) : Z :=
  (z + half_modulus) mod modulus - half_modulus.

Definition in_range (z : Z) : Prop := - half_modulus <= z < half_modulus.

(** Subtraction; a result out of range wraps around, as it does on the
    two's complement target. *)
Definition sub (a b : Z) : Z := wrap (a - b).

End CInt.

(** ** binary32 and binary64 floating point *)

Module F32.

Definition prec : Z := 24.
Definition emax : Z := 128.

(** The representation invariant of a binary32 value. *)
Definition valid (x : spec_float) : bool := valid_binary prec emax x.

Definition is_finite (x : spec_float) : bool :=
  match x with
  | S754_zero _ | S754_finite _ _ _ => true
  | S754_infinity _ | S754_nan => false
  end.

Definition mul : spec_float -> spec_float -> spec_float := SFmul prec emax.
Definition sub : spec_float -> spec_float -> spec_float := SFsub prec emax.
Definition opp : spec_float -> spec_float := SFopp.
Definition ltb : spec_float -> spec_float -> bool := SFltb.
Definition leb : spec_float -> spec_float -> bool := SFleb.
Definition eqb : spec_float -> spec_float -> bool := SFeqb.

(** Conversion of an integer, as in the C cast [(float)n]. *)
Definition of_int (n : Z) : spec_float := binary_normalize prec emax n 0 false.

(** [(uint32_t)x]: the fractional part is discarded; the conversion is
    undefined in C when the integral part is not representable.  For a
    negative [e], [Z.shiftl _ e] is the floor division by [2^(-e)]. *)
Definition to_uint32 (x : spec_float) : option Z :=
  match x with
  | S754_zero _ => Some 0
  | S754_finite s m e =>
      let t := Z.shiftl (Zpos m) e in
      if s then (if t =? 0 then Some 0 else None)
      else if t <? 2 ^ 32 then Some t else None
  | S754_infinity _ | S754_nan => None
  end.

End F32.

Module F64.

Definition prec : Z := 53.
Definition emax : Z := 1024.

Definition mul : spec_float -> spec_float -> spec_float := SFmul prec emax.
Definition div : spec_float -> spec_float -> spec_float := SFdiv prec emax.

Definition of_int (n : Z) : spec_float := binary_normalize prec emax n 0 false.

(** Promotion of a [float] operand to [double] (exact). *)
Definition of_f32 (x : spec_float) : spec_float :=
  match x with
  | S754_finite s m e => binary_round prec emax s m e
  | _ => x
  end.

(** Conversion of a [double] to [float] on assignment (round to nearest
    even). *)
Definition to_f32 (x : spec_float) : spec_float :=
  match x with
  | S754_finite s m e => binary_round F32.prec F32.emax s m e
  | _ => x
  end.

End F64.

(** ** Outcomes *)

(** The outcome of running a piece of the firmware: normal completion, the
    [abort()] of a failed [ESP_ERROR_CHECK], or an operation that C leaves
    undefined. *)
Inductive outcome (A : Type) : Type :=
  | Done (a : A)
  | Aborted (err : Z)
  | Undefined.
Arguments Done {A} a.
Arguments Aborted {A} err.
Arguments Undefined {A}.

#[global] Instance outcome_ret : MRet outcome := fun A a => Done a.

#[global] Instance outcome_bind : MBind outcome := fun A B k x =>
  match x with
  | Done a => k a
  | Aborted err => Aborted err
  | Undefined => Undefined
  end.

(** A conversion that C leaves undefined outside its domain. *)
Definition of_cast {A : Type} (x : option A) : outcome A :=
  match x with
  | Some a => Done a
  | None => Undefined
  end.

Definition esp_err_t : Type := Z.
Definition ESP_OK : esp_err_t := 0.

(** [ESP_ERROR_CHECK(x)] aborts the firmware unless [x] is [ESP_OK]. *)
Definition ESP_ERROR_CHECK (err : esp_err_t) : outcome unit :=
  if err =? ESP_OK then Done tt else Aborted err.

(* ===================================================================== *)
(** * Peripherals used by the motor driver *)
(* ===================================================================== *)

Inductive pcnt_channel_edge_action_t : Type :=
  | PCNT_CHANNEL_EDGE_ACTION_HOLD
  | PCNT_CHANNEL_EDGE_ACTION_INCREASE
  | PCNT_CHANNEL_EDGE_ACTION_DECREASE.

(** The LEDC channels of the low speed group and the pulse counter.
    [ledc_duty] is the duty register written by [ledc_set_duty];
    [ledc_output] is the duty in effect, latched by [ledc_update_duty].
    [pcnt_edge] holds, per counter channel, the actions taken on a rising
    and on a falling edge; [pcnt_count] is the count of each unit.  A
    channel that was never written has duty 0, as [configure_pwm] leaves
    it. *)
Record hw_state : Type := {
  ledc_duty : gmap Z Z;
  ledc_output : gmap Z Z;
  pcnt_edge : gmap Z (pcnt_channel_edge_action_t * pcnt_channel_edge_action_t);
  pcnt_count : gmap Z Z
}.

Definition duty_of (regs : gmap Z Z) (channel : Z) : Z :=
  default 0 (regs !! channel).

Definition ledc_set_duty (channel duty : Z) (hw : hw_state) : hw_state :=
  {| ledc_duty := <[channel := duty]> (ledc_duty hw);
     ledc_output := ledc_output hw;
     pcnt_edge := pcnt_edge hw;
     pcnt_count := pcnt_count hw |}.

Definition ledc_update_duty (channel : Z) (hw : hw_state) : hw_state :=
  {| ledc_duty := ledc_duty hw;
     ledc_output := <[channel := duty_of (ledc_duty hw) channel]> (ledc_output hw);
     pcnt_edge := pcnt_edge hw;
     pcnt_count := pcnt_count hw |}.

Definition pcnt_channel_set_edge_action
    (channel : Z) (pos_act neg_act : pcnt_channel_edge_action_t)
    (hw : hw_state) : hw_state :=
  {| ledc_duty := ledc_duty hw;
     ledc_output := ledc_output hw;
     pcnt_edge := <[channel := (pos_act, neg_act)]> (pcnt_edge hw);
     pcnt_count := pcnt_count hw |}.

Definition pcnt_unit_get_count (unit_handle : Z) (hw : hw_state) : Z :=
  default 0 (pcnt_count hw !! unit_handle).

(** The pulse counter advancing on its own between two control ticks. *)
Definition pcnt_count_becomes (unit_handle value : Z) (hw : hw_state) : hw_state :=
  {| ledc_duty := ledc_duty hw;
     ledc_output := ledc_output hw;
     pcnt_edge := pcnt_edge hw;
     pcnt_count := <[unit_handle := value]> (pcnt_count hw) |}.

(** The PID controller of the [pid_ctrl] component: a control block and the
    step that consumes an error and yields a status, the updated block and
    the new output. *)
Class PidCtrl : Type := {
  pid_ctrl_block : Type;
  pid_compute : pid_ctrl_block -> spec_float -> esp_err_t * pid_ctrl_block * spec_float
}.

(* ===================================================================== *)
(** * motor_driver.c *)
(* ===================================================================== *)

Definition LEDC_TIMER_10_BIT : Z := 10.
Definition PWM_TIMER_RESOLUTION : Z := LEDC_TIMER_10_BIT.

(** [M_PI] of math.h, the binary64 number nearest to pi
    (0x1.921fb54442d18p+1). *)
Definition M_PI : spec_float := S754_finite false 7074237752028440 (-51).

Definition PULSES_PER_ROTATION : spec_float := F64.of_int 30.
Definition PID_LOOP_PERIOD_MS : spec_float := F64.of_int 10.

(** [PULSES_TO_RAD(pulses)]: the [float] conversion of the pulse count is
    promoted to [double] by the division. *)
Definition PULSES_TO_RAD (pulses : Z) : spec_float :=
  F64.mul (F64.div (F64.of_f32 (F32.of_int pulses)) PULSES_PER_ROTATION)
          (F64.mul (F64.of_int 2) M_PI).

(** [(float)(1 << PWM_TIMER_RESOLUTION)] *)
Definition pwm_full_scale : spec_float :=
  F32.of_int (Z.shiftl 1 PWM_TIMER_RESOLUTION).

(** The encoder part of a motor: the handles of its counter unit and
    channel, and the count read at the previous control tick. *)
Record encoder_t : Type := {
  encoder_unit : Z;
  encoder_channel : Z;
  count : Z
}.

Definition set_count (c : Z) (e : encoder_t) : encoder_t :=
  {| encoder_unit := encoder_unit e; encoder_channel := encoder_channel e;
     count := c |}.

Section MotorDriver.
Context {pid : PidCtrl}.

(** The fields of [motor_handle_t] that the driver reads and writes. *)
Record motor_handle_t : Type := {
  enable_pin : Z;
  chan_a : Z;
  chan_b : Z;
  encoder : encoder_t;
  pid_controller : pid_ctrl_block;
  pid_timer : Z;
  cmd_velocity : spec_float;
  reported_speed : spec_float;
  cmd_power : spec_float
}.

Definition set_motor_velocity (motor : motor_handle_t) (velocity : spec_float)
    : motor_handle_t :=
  {| enable_pin := enable_pin motor;
     chan_a := chan_a motor;
     chan_b := chan_b motor;
     encoder := encoder motor;
     pid_controller := pid_controller motor;
     pid_timer := pid_timer motor;
     cmd_velocity := velocity;
     reported_speed := reported_speed motor;
     cmd_power := cmd_power motor |}.

Definition set_motor_power (motor : motor_handle_t) (power : spec_float)
    (hw : hw_state) : outcome hw_state :=
  hw ←
    (if F32.ltb (F32.of_int 0) power then
       duty ← of_cast (F32.to_uint32 (F32.mul power pwm_full_scale));
       let hw := ledc_set_duty (chan_b motor) duty hw in
       let hw := ledc_set_duty (chan_a motor) 0 hw in
       mret (pcnt_channel_set_edge_action (encoder_channel (encoder motor))
               PCNT_CHANNEL_EDGE_ACTION_DECREASE
               PCNT_CHANNEL_EDGE_ACTION_DECREASE hw)
     else
       let hw := ledc_set_duty (chan_b motor) 0 hw in
       duty ← of_cast (F32.to_uint32 (F32.mul (F32.opp power) pwm_full_scale));
       let hw := ledc_set_duty (chan_a motor) duty hw in
       mret (pcnt_channel_set_edge_action (encoder_channel (encoder motor))
               PCNT_CHANNEL_EDGE_ACTION_INCREASE
               PCNT_CHANNEL_EDGE_ACTION_INCREASE hw));
  let hw :=
    if F32.eqb power (F32.of_int 0) then
      pcnt_channel_set_edge_action (encoder_channel (encoder motor))
        PCNT_CHANNEL_EDGE_ACTION_HOLD PCNT_CHANNEL_EDGE_ACTION_HOLD hw
    else hw in
  let hw := ledc_update_duty (chan_a motor) hw in
  mret (ledc_update_duty (chan_b motor) hw).

(** The pulse count elapsed since the previous tick, in [int] arithmetic:
    the [pulses_elapsed] of [pid_callback]. *)
Definition tick_pulses_elapsed (motor : motor_handle_t) (hw : hw_state) : Z :=
  CInt.sub (pcnt_unit_get_count (encoder_unit (encoder motor)) hw)
           (count (encoder motor)).

Definition pid_callback (motor : motor_handle_t) (hw : hw_state)
    : outcome (motor_handle_t * hw_state) :=
  let current_encoder_count :=
    pcnt_unit_get_count (encoder_unit (encoder motor)) hw in
  let pulses_elapsed := CInt.sub current_encoder_count (count (encoder motor)) in
  let speed :=
    F64.to_f32
      (F64.mul (PULSES_TO_RAD pulses_elapsed)
               (F64.div PID_LOOP_PERIOD_MS (F64.of_int 1000))) in
  let error := F32.sub (cmd_velocity motor) speed in
  let '(err, block, power) := pid_compute (pid_controller motor) error in
  _ ← ESP_ERROR_CHECK err;
  let motor :=
    {| enable_pin := enable_pin motor;
       chan_a := chan_a motor;
       chan_b := chan_b motor;
       encoder := encoder motor;
       pid_controller := block;
       pid_timer := pid_timer motor;
       cmd_velocity := cmd_velocity motor;
       reported_speed := speed;
       cmd_power := power |} in
  hw ← set_motor_power motor power hw;
  mret ({| enable_pin := enable_pin motor;
           chan_a := chan_a motor;
           chan_b := chan_b motor;
           encoder := set_count current_encoder_count (encoder motor);
           pid_controller := pid_controller motor;
           pid_timer := pid_timer motor;
           cmd_velocity := cmd_velocity motor;
           reported_speed := reported_speed motor;
           cmd_power := cmd_power motor |}, hw).

(** A run of the periodic timer: before each tick the pulse counter has
    reached the next value of [counts].  The result lists the pulse delta
    of every tick, oldest first. *)
Fixpoint control_ticks (counts : list Z) (motor : motor_handle_t)
    (hw : hw_state) : outcome (list Z * motor_handle_t * hw_state) :=
  match counts with
  | [] => mret ([], motor, hw)
  | c :: counts =>
      let hw := pcnt_count_becomes (encoder_unit (encoder motor)) c hw in
      let delta := tick_pulses_elapsed motor hw in
      '(motor, hw) ← pid_callback motor hw;
      '(deltas, motor, hw) ← control_ticks counts motor hw;
      mret (delta :: deltas, motor, hw)
  end.

(** The state reached when both duty registers are written ([chan_b]
    first), the edge action is set and the two channels are latched. *)
Definition driven (motor : motor_handle_t) (duty_b duty_a : Z)
    (act : pcnt_channel_edge_action_t) (hw : hw_state) : hw_state :=
  ledc_update_duty (chan_b motor)
    (ledc_update_duty (chan_a motor)
       (pcnt_channel_set_edge_action (encoder_channel (encoder motor)) act act
          (ledc_set_duty (chan_a motor) duty_a
             (ledc_set_duty (chan_b motor) duty_b hw)))).

(** The controller is configured with [min_output = -1.0] and
    [max_output = 1.0]: every step succeeds with a power in that range. *)
Definition pid_output_bounded : Prop :=
  forall block error, exists block' power,
    pid_compute block error = (ESP_OK, block', power)
    /\ F32.valid power = true
    /\ F32.leb (F32.of_int (-1)) power = true
    /\ F32.leb power (F32.of_int 1) = true.

End MotorDriver.

(** ** Notions used to state the properties of the driver *)

Definition channel_duty (hw : hw_state) (channel : Z) : Z :=
  duty_of (ledc_duty hw) channel.

Definition channel_output (hw : hw_state) (channel : Z) : Z :=
  duty_of (ledc_output hw) channel.

Definition edge_action (hw : hw_state) (channel : Z)
    : option (pcnt_channel_edge_action_t * pcnt_channel_edge_action_t) :=
  pcnt_edge hw !! channel.

(** The integral part of |x| * 2^PWM_TIMER_RESOLUTION, in exact
    arithmetic. *)
Definition pwm_steps (x : spec_float) : Z :=
  match x with
  | S754_finite _ m e => Z.shiftl (Zpos m) (e + PWM_TIMER_RESOLUTION)
  | _ => 0
  end.

Definition total (deltas : list Z) : Z := foldr Z.add 0 deltas.

(** The velocity estimate in the words of the design document: the angular
    displacement of the pulse delta divided by the control period in
    seconds. *)
Definition spec_reported_velocity (delta : Z) : spec_float :=
  F64.to_f32
    (F64.div (PULSES_TO_RAD delta)
             (F64.div PID_LOOP_PERIOD_MS (F64.of_int 1000))).

(** A mantissa that a right shift leaves exact. *)
Definition exact_record (m : positive) : shr_record :=
  {| shr_m := Zpos m; shr_r := false; shr_s := false |}.

(* ===================================================================== *)
(** * socket_mgr.c *)
(* ===================================================================== *)

(** The message schema and the nanopb helpers of pb_utils that the socket
    manager calls.  A message descriptor is compared by address in C, hence
    the decidable equality.  [pb_encode] receives the capacity of the output
    buffer and yields its status with the bytes it wrote, which number
    [stream.bytes_written]. *)
Class PbSchema : Type := {
  UdpPacket : Type;
  TwistCmd : Type;
  TwistCmd_zero : TwistCmd;
  pb_msgdesc_t : Type;
  pb_msgdesc_eq_dec :: EqDecision pb_msgdesc_t;
  TwistCmd_fields : pb_msgdesc_t;
  UdpPacket_fields : pb_msgdesc_t;
  pb_istream_t : Type;
  pb_istream_from_buffer : list Byte.byte -> pb_istream_t;
  PB_GET_ERROR : pb_istream_t -> string;
  decode_unionmessage_type : pb_istream_t -> option pb_msgdesc_t * pb_istream_t;
  decode_unionmessage_contents :
    pb_istream_t -> pb_msgdesc_t -> TwistCmd -> bool * TwistCmd * pb_istream_t;
  pb_encode : nat -> pb_msgdesc_t -> UdpPacket -> bool * list Byte.byte
}.

Definition MAX_RX_CALLBACKS : nat := 1.

Inductive eRxMsgTypes : Type := eTwistCmd.

Definition rx_index (type : eRxMsgTypes) : nat :=
  match type with eTwistCmd => 0%nat end.

(** [sizeof(tx_buffer)] and [sizeof(rx_buffer)] *)
Definition buffer_size : nat := 1500.

Inductive log_entry : Type :=
  | LogSerializeFailed
  | LogRecvfromFailed (errno : Z)
  | LogDecodeFailed (msg : string).

(** What [recvfrom] hands back: a negative length with an errno, or a
    datagram. *)
Inductive recv_result : Type :=
  | RecvFailed (errno : Z)
  | RecvDatagram (payload : list Byte.byte).

(** A registered callback is a code address; an empty slot is the null
    pointer of the zero-initialised table. *)
Definition callback_table : Type := list (option nat).

Definition rx_callbacks_init : callback_table := replicate MAX_RX_CALLBACKS None.

Definition register_callback (callback : nat) (type : eRxMsgTypes)
    (rx_callbacks : callback_table) : callback_table :=
  <[rx_index type := Some callback]> rx_callbacks.

(** How one iteration of the receive loop ends. *)
Inductive rx_control : Type :=
  | RxContinue
  | RxReturn
  | RxNullCall.

(** How the receive task stands after the given results of [recvfrom]:
    suspended in the next [recvfrom], returned from the task function, or
    stopped at a call through a null callback. *)
Inductive rx_exit : Type :=
  | RxBlocked
  | RxReturned
  | RxCrashed.

Inductive tx_event : Type :=
  | TxLog (entry : log_entry)
  | TxSendto (payload : list Byte.byte).

Definition is_sendto (ev : tx_event) : bool :=
  match ev with
  | TxSendto _ => true
  | TxLog _ => false
  end.

(** Bytes written through an output stream land at the start of the
    buffer. *)
Definition buffer_write (written buffer : list Byte.byte) : list Byte.byte :=
  written ++ drop (length written) buffer.

Section SocketMgr.
Context {pb : PbSchema}.

(** ** Send task *)

(** One iteration of the send loop, for the envelope taken from the
    queue; the value returned by [sendto] is not looked at. *)
Definition tx_iteration (msg : UdpPacket) (tx_buffer : list Byte.byte)
    : list tx_event * list Byte.byte :=
  let '(status, written) := pb_encode buffer_size UdpPacket_fields msg in
  let tx_buffer := buffer_write written tx_buffer in
  let bytes_written := length written in
  ((if negb status then [TxLog LogSerializeFailed] else [])
     ++ [TxSendto (take bytes_written tx_buffer)],
   tx_buffer).

(** The send task on the envelopes that arrive in the queue, in order;
    when they are exhausted the task is suspended in [xQueueReceive]. *)
Fixpoint socket_tx_task (queue : list UdpPacket) (tx_buffer : list Byte.byte)
    : list tx_event :=
  match queue with
  | [] => []
  | msg :: queue =>
      let '(events, tx_buffer) := tx_iteration msg tx_buffer in
      events ++ socket_tx_task queue tx_buffer
  end.

(** ** Receive task *)

Inductive rx_event : Type :=
  | RxLog (entry : log_entry)
  | RxCallback (callback : nat) (msg : TwistCmd).

Definition rx_iteration (rx_callbacks : callback_table) (r : recv_result)
    : list rx_event * rx_control :=
  match r with
  | RecvFailed errno => ([RxLog (LogRecvfromFailed errno)], RxReturn)
  | RecvDatagram payload =>
      let stream := pb_istream_from_buffer (take buffer_size payload) in
      let '(type, stream) := decode_unionmessage_type stream in
      if decide (type = Some TwistCmd_fields) then
        let '(status, msg, stream) :=
          decode_unionmessage_contents stream TwistCmd_fields TwistCmd_zero in
        match rx_callbacks !! rx_index eTwistCmd with
        | Some (Some callback) =>
            (RxCallback callback msg ::
               (if negb status then [RxLog (LogDecodeFailed (PB_GET_ERROR stream))]
                else []),
             RxContinue)
        | _ => ([], RxNullCall)
        end
      else
        ([RxLog (LogDecodeFailed (PB_GET_ERROR stream))], RxContinue)
  end.

Fixpoint socket_rx_task (rx_callbacks : callback_table)
    (network : list recv_result) : list rx_event * rx_exit :=
  match network with
  | [] => ([], RxBlocked)
  | r :: network =>
      let '(events, control) := rx_iteration rx_callbacks r in
      match control with
      | RxContinue =>
          let '(rest, exit) := socket_rx_task rx_callbacks network in
          (events ++ rest, exit)
      | RxReturn => (events, RxReturned)
      | RxNullCall => (events, RxCrashed)
      end
  end.

Definition is_callback (ev : rx_event) : bool :=
  match ev with
  | RxCallback _ _ => true
  | RxLog _ => false
  end.

End SocketMgr.

(* ===================================================================== *)
(** * Instances on which the firmware is run *)
(* ===================================================================== *)

(** A controller standing in for the [pid_ctrl] component when the driver
    is run on concrete inputs: it never fails and outputs the sign of the
    error, which lies in the configured output range [-1, 1]. *)
Definition sign_compute (block : unit) (error : spec_float)
    : esp_err_t * unit * spec_float :=
  (ESP_OK, tt,
   if F32.ltb (F32.of_int 0) error then F32.of_int 1
   else if F32.ltb error (F32.of_int 0) then F32.of_int (-1)
   else F32.of_int 0).

Definition sign_pid : PidCtrl :=
  {| pid_ctrl_block := unit; pid_compute := sign_compute |}.

(** The peripherals after configuration: nothing written yet. *)
Definition hw_reset : hw_state :=
  {| ledc_duty := ∅; ledc_output := ∅; pcnt_edge := ∅; pcnt_count := ∅ |}.

(** A motor on LEDC channels 0 and 1 whose encoder count starts at 0. *)
Definition bench_motor : @motor_handle_t sign_pid :=
  @Build_motor_handle_t sign_pid 4 0 1
    {| encoder_unit := 100; encoder_channel := 200; count := 0 |}
    tt 300 (F32.of_int 0) (F32.of_int 0) (F32.of_int 0).

(** 0.5f *)
Definition half : spec_float := S754_finite false 8388608 (-24).

Module Wire.

(** Modelled from the spec: the message schema and its decoder.  The
    generated descriptors of messages.pb.h and the helpers of pb_utils are
    not among the sources; the design document describes the payload as
    "a binary-encoded envelope with a leading type discriminant followed
    by a type-specific message body", the inbound velocity command
    "carrying two floating-point fields (linear, angular)".  Here the
    discriminant is one byte and each field is a word of four bytes. *)
Inductive msgdesc : Type := TwistCmd_desc | UdpPacket_desc.

#[global] Instance msgdesc_eq_dec : EqDecision msgdesc.
Proof. solve_decision. Defined.

Record twist_cmd : Type := {
  linear : list Byte.byte;
  angular : list Byte.byte
}.

Definition word_zero : list Byte.byte :=
  [Byte.x00; Byte.x00; Byte.x00; Byte.x00].

Definition twist_zero : twist_cmd :=
  {| linear := word_zero; angular := word_zero |}.

Record istream : Type := {
  bytes_left : list Byte.byte;
  errmsg : string
}.

Definition istream_from_buffer (buffer : list Byte.byte) : istream :=
  {| bytes_left := buffer; errmsg := "(none)" |}.

(** Modelled from the spec: the envelope decoder [decode_unionmessage_type]
    of pb_utils, reading the leading type discriminant. *)
Definition decode_type (stream : istream) : option msgdesc * istream :=
  match bytes_left stream with
  | [] => (None, {| bytes_left := []; errmsg := "end-of-stream" |})
  | tag :: body =>
      let stream := {| bytes_left := body; errmsg := errmsg stream |} in
      if Byte.eqb tag Byte.x01 then (Some TwistCmd_desc, stream)
      else if Byte.eqb tag Byte.x02 then (Some UdpPacket_desc, stream)
      else (None, stream)
  end.

(** Modelled from the spec: the body decoder
    [decode_unionmessage_contents] of pb_utils, for the two fields of a
    velocity command; a truncated body fails and leaves the fields it did
    not reach as they were. *)
Definition decode_contents (stream : istream) (desc : msgdesc)
    (dest : twist_cmd) : bool * twist_cmd * istream :=
  match bytes_left stream with
  | l0 :: l1 :: l2 :: l3 :: a0 :: a1 :: a2 :: a3 :: rest =>
      (true,
       {| linear := [l0; l1; l2; l3]; angular := [a0; a1; a2; a3] |},
       {| bytes_left := rest; errmsg := errmsg stream |})
  | l0 :: l1 :: l2 :: l3 :: _ =>
      (false,
       {| linear := [l0; l1; l2; l3]; angular := angular dest |},
       {| bytes_left := []; errmsg := "end-of-stream" |})
  | _ =>
      (false, dest, {| bytes_left := []; errmsg := "end-of-stream" |})
  end.

(** Modelled from the spec: the encoder [pb_encode] of nanopb.  An outbound
    packet is its body; the encoder stops with an error when the buffer is
    full. *)
Definition encode (capacity : nat) (desc : msgdesc) (msg : list Byte.byte)
    : bool * list Byte.byte :=
  let bytes := Byte.x02 :: msg in
  if (length bytes <=? capacity)%nat then (true, bytes)
  else (false, take capacity bytes).

Definition schema : PbSchema :=
  {| UdpPacket := list Byte.byte;
     TwistCmd := twist_cmd;
     TwistCmd_zero := twist_zero;
     pb_msgdesc_t := msgdesc;
     TwistCmd_fields := TwistCmd_desc;
     UdpPacket_fields := UdpPacket_desc;
     pb_istream_t := istream;
     pb_istream_from_buffer := istream_from_buffer;
     PB_GET_ERROR := errmsg;
     decode_unionmessage_type := decode_type;
     decode_unionmessage_contents := decode_contents;
     pb_encode := encode |}.

(** A velocity command with linear = 1.0f and angular = 0.0f. *)
Definition twist_datagram : list Byte.byte :=
  [Byte.x01; Byte.x00; Byte.x00; Byte.x80; Byte.x3f;
   Byte.x00; Byte.x00; Byte.x00; Byte.x00].

(** A velocity command cut after two bytes of its body. *)
Definition truncated_twist_datagram : list Byte.byte :=
  [Byte.x01; Byte.x00; Byte.x00].

(** A packet whose encoding does not fit the transmit buffer. *)
Definition oversize_packet : list Byte.byte := replicate buffer_size Byte.x07.

End Wire.

(** The callback table once the velocity command handler (at address 7) is
    registered. *)
Definition bench_callbacks : callback_table :=
  register_callback 7 eTwistCmd rx_callbacks_init.

(* ===================================================================== *)
(** * Further notions used to state properties *)
(* ===================================================================== *)

(** The sign bit of a float; a NaN has none. *)
Definition float_sign (x : spec_float) : option bool :=
  match x with
  | S754_nan => None
  | S754_zero s | S754_infinity s | S754_finite s _ _ => Some s
  end.

(** The speed that a control tick computes from the pulse delta, and the
    error that it hands to the controller. *)
Definition tick_speed {pid : PidCtrl} (motor : motor_handle_t) (hw : hw_state)
    : spec_float :=
  F64.to_f32
    (F64.mul (PULSES_TO_RAD (tick_pulses_elapsed motor hw))
             (F64.div PID_LOOP_PERIOD_MS (F64.of_int 1000))).

Definition tick_error {pid : PidCtrl} (motor : motor_handle_t) (hw : hw_state)
    : spec_float :=
  F32.sub (cmd_velocity motor) (tick_speed motor hw).

(** The state in which a tick leaves the two PWM channels of a motor: both
    duties within the full scale, one of them 0, and nothing written that
    is not latched. *)
Definition actuator_settled {pid : PidCtrl} (motor : motor_handle_t)
    (hw : hw_state) : Prop :=
  0 <= channel_duty hw (chan_a motor) <= 1024
  /\ 0 <= channel_duty hw (chan_b motor) <= 1024
  /\ (channel_duty hw (chan_a motor) = 0 \/ channel_duty hw (chan_b motor) = 0)
  /\ channel_output hw (chan_a motor) = channel_duty hw (chan_a motor)
  /\ channel_output hw (chan_b motor) = channel_duty hw (chan_b motor).

(** The speed that [pid_callback] computes from the pulses elapsed. *)
Definition speed_of_pulses (pulses_elapsed : Z) : spec_float :=
  F64.to_f32
    (F64.mul (PULSES_TO_RAD pulses_elapsed)
             (F64.div PID_LOOP_PERIOD_MS (F64.of_int 1000))).

(** A run of the periodic timer as in [control_ticks], observed from
    outside: the result lists what each tick left in [reported_speed],
    oldest first. *)
Fixpoint control_reports {pid : PidCtrl} (counts : list Z)
    (motor : motor_handle_t) (hw : hw_state)
    : outcome (list spec_float * motor_handle_t * hw_state) :=
  match counts with
  | [] => mret ([], motor, hw)
  | c :: counts =>
      let hw := pcnt_count_becomes (encoder_unit (encoder motor)) c hw in
      '(motor, hw) ← pid_callback motor hw;
      let report := reported_speed motor in
      '(reports, motor, hw) ← control_reports counts motor hw;
      mret (report :: reports, motor, hw)
  end.

(** A datagram that decodes, envelope and body, to a velocity command. *)
Definition decodes_to {pb : PbSchema} (payload : list Byte.byte) (msg : TwistCmd)
    : Prop :=
  exists stream stream',
    decode_unionmessage_type (pb_istream_from_buffer (take buffer_size payload))
    = (Some TwistCmd_fields, stream)
    /\ decode_unionmessage_contents stream TwistCmd_fields TwistCmd_zero
       = (true, msg, stream').

(** What [recvfrom] hands back does not announce a velocity command. *)
Definition not_twist {pb : PbSchema} (r : recv_result) : Prop :=
  match r with
  | RecvFailed _ => True
  | RecvDatagram payload =>
      (decode_unionmessage_type
         (pb_istream_from_buffer (take buffer_size payload))).1
      <> Some TwistCmd_fields
  end.

(** The datagrams handed to [sendto], in order. *)
Definition tx_payloads (events : list tx_event) : list (list Byte.byte) :=
  omap (fun ev => match ev with TxSendto payload => Some payload | TxLog _ => None end)
       events.

Definition is_tx_log (ev : tx_event) : bool :=
  match ev with
  | TxLog _ => true
  | TxSendto _ => false
  end.

(* ===================================================================== *)
(** * motor_driver.c: enabling and configuration *)
(* ===================================================================== *)

(** ** The enable line *)

Inductive gpio_mode_t : Type :=
  | GPIO_MODE_DISABLE
  | GPIO_MODE_INPUT
  | GPIO_MODE_OUTPUT.

(** The direction and the output level of the GPIO pins. *)
Record gpio_state : Type := {
  gpio_direction : gmap Z gpio_mode_t;
  gpio_level : gmap Z Z
}.

Definition gpio_set_direction (pin : Z) (mode : gpio_mode_t) (gpio : gpio_state)
    : gpio_state :=
  {| gpio_direction := <[pin := mode]> (gpio_direction gpio);
     gpio_level := gpio_level gpio |}.

Definition gpio_set_level (pin level : Z) (gpio : gpio_state) : gpio_state :=
  {| gpio_direction := gpio_direction gpio;
     gpio_level := <[pin := level]> (gpio_level gpio) |}.

Definition set_motor_enabled {pid : PidCtrl} (motor : motor_handle_t)
    (enable : bool) (gpio : gpio_state) : gpio_state :=
  let gpio := gpio_set_direction (enable_pin motor) GPIO_MODE_OUTPUT gpio in
  if enable then gpio_set_level (enable_pin motor) 1 gpio
  else gpio_set_level (enable_pin motor) 0 gpio.

(** ** Configuration *)

Definition PWM_FREQ_HZ : Z := 4000.
Definition INT16_MIN : Z := -32768.
Definition INT16_MAX : Z := 32767.

Inductive pid_calculate_type_t : Type :=
  | PID_CAL_TYPE_INCREMENTAL
  | PID_CAL_TYPE_POSITIONAL.

Record pid_ctrl_parameter_t : Type := {
  kp : spec_float;
  ki : spec_float;
  kd : spec_float;
  max_output : spec_float;
  min_output : spec_float;
  max_integral : spec_float;
  min_integral : spec_float;
  cal_type : pid_calculate_type_t
}.

(** The decimal constant [n / 10] converted to [float]. *)
Definition tenths (n : Z) : spec_float :=
  F64.to_f32 (F64.div (F64.of_int n) (F64.of_int 10)).

Definition pid_runtime_param : pid_ctrl_parameter_t :=
  {| kp := tenths 6;
     ki := tenths 4;
     kd := tenths 2;
     cal_type := PID_CAL_TYPE_INCREMENTAL;
     max_output := F64.to_f32 (F64.of_int 1);
     min_output := F64.to_f32 (F64.of_int (-1));
     max_integral := tenths 5;
     min_integral := tenths (-5) |}.

(** The calls that the configuration makes into the drivers, with the
    arguments that vary or matter.  All LEDC calls are for the low speed
    mode and timer 0; the timer created runs [pid_callback] on the motor
    being configured. *)
Inductive hal_call : Type :=
  | LedcTimerConfig (duty_resolution freq_hz : Z)
  | LedcChannelConfig (channel gpio_num duty hpoint : Z)
  | GpioPullupEn (pin : Z)
  | PcntNewUnit (low_limit high_limit : Z) (accum_count : bool)
  | PcntUnitSetGlitchFilter (unit_handle max_glitch_ns : Z)
  | PcntNewChannel (unit_handle edge_gpio_num : Z)
  | PcntChannelSetEdgeAction (channel : Z)
      (pos_act neg_act : pcnt_channel_edge_action_t)
  | PcntUnitAddWatchPoint (unit_handle watch_point : Z)
  | PcntUnitEnable (unit_handle : Z)
  | PcntUnitClearCount (unit_handle : Z)
  | PcntUnitStart (unit_handle : Z)
  | PidNewControlBlock (init_param : pid_ctrl_parameter_t)
  | EspTimerCreate (name : string)
  | EspTimerStartPeriodic (timer period_us : Z).

(** The calls whose status is passed to [ESP_ERROR_CHECK]. *)
Definition is_checked (call : hal_call) : bool :=
  match call with
  | GpioPullupEn _ | EspTimerStartPeriodic _ _ => false
  | _ => true
  end.

Definition is_timer_start (call : hal_call) : bool :=
  match call with
  | EspTimerStartPeriodic _ _ => true
  | _ => false
  end.

(** [(uint64_t)x], as [F32.to_uint32] at 64 bits. *)
Definition to_uint64 (x : spec_float) : option Z :=
  match x with
  | S754_zero _ => Some 0
  | S754_finite s m e =>
      let t := Z.shiftl (Zpos m) e in
      if s then (if t =? 0 then Some 0 else None)
      else if t <? 2 ^ 64 then Some t else None
  | S754_infinity _ | S754_nan => None
  end.

(** A piece of configuration code: the calls it made and how it ended. *)
Definition hal (A : Type) : Type := list hal_call * outcome A.

#[global] Instance hal_ret : MRet hal := fun A a => ([], Done a).

#[global] Instance hal_bind : MBind hal := fun A B k x =>
  match x with
  | (calls, Done a) => let '(calls', r) := k a in (calls ++ calls', r)
  | (calls, Aborted err) => (calls, Aborted err)
  | (calls, Undefined) => (calls, Undefined)
  end.

Section Configuration.
Context {pid : PidCtrl}.

(** What the drivers answer: the status of each call, and the handles of
    the objects they create. *)
Record hal_env : Type := {
  hal_status : hal_call -> esp_err_t;
  new_pcnt_unit : Z;
  new_pcnt_channel : Z;
  new_pid_block : pid_ctrl_block;
  new_timer : Z
}.

(** A call under [ESP_ERROR_CHECK], and a call whose status is dropped. *)
Definition hal_checked (env : hal_env) (call : hal_call) : hal unit :=
  ([call], ESP_ERROR_CHECK (hal_status env call)).

Definition hal_unchecked (call : hal_call) : hal unit := ([call], Done tt).

Definition init_motor_pwm (env : hal_env) : hal unit :=
  hal_checked env (LedcTimerConfig PWM_TIMER_RESOLUTION PWM_FREQ_HZ).

Definition configure_pwm (env : hal_env) (channel gpio : Z) : hal unit :=
  hal_checked env (LedcChannelConfig channel gpio 0 0).

Definition configure_motor (env : hal_env) (motor : motor_handle_t)
    (pwm_a_pin pwm_a_chan pwm_b_pin pwm_b_chan encoder_pin : Z)
    : hal motor_handle_t :=
  _ ← configure_pwm env pwm_a_chan pwm_a_pin;
  _ ← configure_pwm env pwm_b_chan pwm_b_pin;
  _ ← hal_unchecked (GpioPullupEn encoder_pin);
  _ ← hal_checked env (PcntNewUnit INT16_MIN INT16_MAX true);
  let unit_handle := new_pcnt_unit env in
  _ ← hal_checked env (PcntUnitSetGlitchFilter unit_handle 10000);
  _ ← hal_checked env (PcntNewChannel unit_handle encoder_pin);
  let channel := new_pcnt_channel env in
  _ ← hal_checked env
        (PcntChannelSetEdgeAction channel
           PCNT_CHANNEL_EDGE_ACTION_HOLD PCNT_CHANNEL_EDGE_ACTION_HOLD);
  _ ← hal_checked env (PcntUnitAddWatchPoint unit_handle INT16_MAX);
  _ ← hal_checked env (PcntUnitAddWatchPoint unit_handle INT16_MIN);
  _ ← hal_checked env (PcntUnitEnable unit_handle);
  _ ← hal_checked env (PcntUnitClearCount unit_handle);
  _ ← hal_checked env (PcntUnitStart unit_handle);
  _ ← hal_checked env (PidNewControlBlock pid_runtime_param);
  _ ← hal_checked env (EspTimerCreate "pid_loop");
  period ← ([], of_cast (to_uint64 (F64.mul PID_LOOP_PERIOD_MS (F64.of_int 1000))));
  _ ← hal_unchecked (EspTimerStartPeriodic (new_timer env) period);
  mret {| enable_pin := enable_pin motor;
          chan_a := pwm_a_chan;
          chan_b := pwm_b_chan;
          encoder :=
            {| encoder_unit := unit_handle;
               encoder_channel := channel;
               count := count (encoder motor) |};
          pid_controller := new_pid_block env;
          pid_timer := new_timer env;
          cmd_velocity := cmd_velocity motor;
          reported_speed := reported_speed motor;
          cmd_power := cmd_power motor |}.

(** The calls of a configuration in which nothing fails. *)
Definition configure_motor_calls (env : hal_env)
    (pwm_a_pin pwm_a_chan pwm_b_pin pwm_b_chan encoder_pin : Z) : list hal_call :=
  [ LedcChannelConfig pwm_a_chan pwm_a_pin 0 0;
    LedcChannelConfig pwm_b_chan pwm_b_pin 0 0;
    GpioPullupEn encoder_pin;
    PcntNewUnit INT16_MIN INT16_MAX true;
    PcntUnitSetGlitchFilter (new_pcnt_unit env) 10000;
    PcntNewChannel (new_pcnt_unit env) encoder_pin;
    PcntChannelSetEdgeAction (new_pcnt_channel env)
      PCNT_CHANNEL_EDGE_ACTION_HOLD PCNT_CHANNEL_EDGE_ACTION_HOLD;
    PcntUnitAddWatchPoint (new_pcnt_unit env) INT16_MAX;
    PcntUnitAddWatchPoint (new_pcnt_unit env) INT16_MIN;
    PcntUnitEnable (new_pcnt_unit env);
    PcntUnitClearCount (new_pcnt_unit env);
    PcntUnitStart (new_pcnt_unit env);
    PidNewControlBlock pid_runtime_param;
    EspTimerCreate "pid_loop";
    EspTimerStartPeriodic (new_timer env) 10000 ].

End Configuration.

(* ===================================================================== *)
(** * socket_mgr.c: the agent address and the start of the tasks *)
(* ===================================================================== *)

Definition ESP_FAIL : esp_err_t := -1.
Definition ESP_ERR_NVS_NOT_FOUND : esp_err_t := 4354.

Definition PORT : Z := 8001.
Definition SOCKET_TX_TASK_STACK_SIZE : Z := 4096.
Definition SOCKET_RX_TASK_STACK_SIZE : Z := 4096.

(** [sizeof(AGENT_IP)] *)
Definition AGENT_IP_size : nat := 16.

(** The states reported to the status LED. *)
Inductive agent_status : Type :=
  | eAgentDisconnected
  | eAgentConnected.

Inductive mgr_task : Type :=
  | SocketTxTask
  | SocketRxTask.

Inductive mgr_log : Type :=
  | LogNvsOpenFailed (err : esp_err_t)
  | LogAgentIpRetrieved (ip : string)
  | LogAgentIpNotSet
  | LogNvsReadFailed (err : esp_err_t)
  | LogSocketFailed (errno : Z)
  | LogBindFailed (errno : Z)
  | LogSocketBound (port : Z)
  | LogSocketCreated (ip : string) (port : Z).

(** What the initialisation does that can be seen from outside. *)
Inductive mgr_event : Type :=
  | EvSetStatus (status : agent_status)
  | EvNvsOpen (name : string)
  | EvNvsGetStr (handle : Z) (key : string)
  | EvNvsClose (handle : Z)
  | EvLog (entry : mgr_log)
  | EvTaskDelay (ms : Z)
  | EvSocket
  | EvBind (socket_id port : Z)
  | EvQueueCreate (queue_length : Z)
  | EvTaskCreate (task : mgr_task) (stack_size priority : Z).

(** The non-volatile storage as one call of [get_agent_ip] finds it:
    [nvs_open] answers with a status and a handle; [nvs_get_str] is given
    the handle, the key, the buffer and its size, and answers with a
    status and the buffer as it leaves it. *)
Record nvs_t : Type := {
  nvs_open : string -> esp_err_t * Z;
  nvs_get_str : Z -> string -> string -> nat -> esp_err_t * string
}.

(** [get_agent_ip], on the storage and the current content of [AGENT_IP]:
    the events, the new content, and the value returned. *)
Definition get_agent_ip (nvs : nvs_t) (AGENT_IP : string)
    : list mgr_event * string * esp_err_t :=
  let '(err, my_handle) := nvs_open nvs "storage" in
  if negb (err =? ESP_OK) then
    ([EvNvsOpen "storage"; EvLog (LogNvsOpenFailed err)], AGENT_IP, ESP_OK)
  else
    let '(err, AGENT_IP) :=
      nvs_get_str nvs my_handle "uros_ag_ip" AGENT_IP AGENT_IP_size in
    let calls := [EvNvsOpen "storage"; EvNvsGetStr my_handle "uros_ag_ip"] in
    if err =? ESP_OK then
      (calls ++ [EvLog (LogAgentIpRetrieved AGENT_IP); EvNvsClose my_handle],
       AGENT_IP, ESP_OK)
    else if err =? ESP_ERR_NVS_NOT_FOUND then
      (calls ++ [EvLog LogAgentIpNotSet; EvNvsClose my_handle], AGENT_IP, ESP_FAIL)
    else
      (calls ++ [EvLog (LogNvsReadFailed err); EvNvsClose my_handle],
       AGENT_IP, ESP_FAIL).

(** What [socket] and [bind] answer. *)
Record net_env : Type := {
  socket_result : Z;
  socket_errno : Z;
  bind_result : Z -> Z;
  bind_errno : Z
}.

(** The globals of the socket manager once it is initialised. *)
Record socket_mgr_state : Type := {
  AGENT_IP : string;
  socket_id : Z;
  dest_addr : string * Z
}.

(** The polling loop of [socket_mgr_init]: one storage per call of
    [get_agent_ip], 500 ms apart.  When the storages observed are
    exhausted the loop is still polling. *)
Fixpoint poll_agent_ip (attempts : list nvs_t) (AGENT_IP : string)
    : list mgr_event * option string :=
  match attempts with
  | [] => ([], None)
  | nvs :: attempts =>
      let '(events, AGENT_IP, err) := get_agent_ip nvs AGENT_IP in
      if negb (err =? ESP_OK) then
        let '(rest, result) := poll_agent_ip attempts AGENT_IP in
        (events ++ EvTaskDelay 500 :: rest, result)
      else (events, Some AGENT_IP)
  end.

Definition socket_mgr_init (attempts : list nvs_t) (net : net_env)
    (AGENT_IP : string) : list mgr_event * option socket_mgr_state :=
  let '(polling, result) := poll_agent_ip attempts AGENT_IP in
  match result with
  | None => (EvSetStatus eAgentDisconnected :: polling, None)
  | Some AGENT_IP =>
      let dest_addr := (AGENT_IP, PORT) in
      let socket_id := socket_result net in
      let err := bind_result net socket_id in
      (EvSetStatus eAgentDisconnected :: polling
         ++ [EvSocket]
         ++ (if socket_id <? 0 then [EvLog (LogSocketFailed (socket_errno net))]
             else [])
         ++ [EvBind socket_id PORT]
         ++ (if err <? 0 then [EvLog (LogBindFailed (bind_errno net))]
             else [EvSetStatus eAgentConnected; EvLog (LogSocketBound PORT)])
         ++ [EvLog (LogSocketCreated AGENT_IP PORT);
             EvQueueCreate 25;
             EvTaskCreate SocketTxTask SOCKET_TX_TASK_STACK_SIZE 10;
             EvTaskCreate SocketRxTask SOCKET_TX_TASK_STACK_SIZE 10],
       Some {| AGENT_IP := AGENT_IP; socket_id := socket_id;
               dest_addr := dest_addr |})
  end.

Definition is_delay (ev : mgr_event) : bool :=
  match ev with
  | EvTaskDelay _ => true
  | _ => false
  end.

Definition is_nvs_close (ev : mgr_event) : bool :=
  match ev with
  | EvNvsClose _ => true
  | _ => false
  end.


(** The events of polling: storage calls, their logs and delays of
    500 ms. *)
Definition is_polling_event (ev : mgr_event) : Prop :=
  match ev with
  | EvTaskDelay ms => ms = 500
  | EvNvsOpen _ | EvNvsGetStr _ _ | EvNvsClose _ => True
  | EvLog (LogNvsOpenFailed _) | EvLog (LogAgentIpRetrieved _)
  | EvLog LogAgentIpNotSet | EvLog (LogNvsReadFailed _) => True
  | _ => False
  end.

(* ===================================================================== *)
(** * Further examples *)
(* ===================================================================== *)

(** A storage in which the agent address is, or is not, provisioned. *)
Definition nvs_store (value : option string) : nvs_t :=
  {| nvs_open := fun _ => (ESP_OK, 1);
     nvs_get_str := fun _ _ buffer _ =>
       match value with
       | Some ip => (ESP_OK, ip)
       | None => (ESP_ERR_NVS_NOT_FOUND, buffer)
       end |}.

(** A storage that cannot be opened. *)
Definition nvs_unavailable : nvs_t :=
  {| nvs_open := fun _ => (4353, 0);
     nvs_get_str := fun _ _ buffer _ => (4353, buffer) |}.

(** A network stack on which [socket] and [bind] succeed. *)
Definition bench_net : net_env :=
  {| socket_result := 3; socket_errno := 0;
     bind_result := fun _ => 0; bind_errno := 0 |}.

(** Drivers that accept every call. *)
Definition bench_hal : @hal_env sign_pid :=
  @Build_hal_env sign_pid (fun _ => ESP_OK) 100 200 tt 300.

(** A controller that refuses a null control block, as the argument check
    of a driver does; a block is [true] when it is not null. *)
Definition ESP_ERR_INVALID_ARG : esp_err_t := 258.

Definition checked_compute (block : bool) (error : spec_float)
    : esp_err_t * bool * spec_float :=
  if block then (ESP_OK, block, (sign_compute tt error).2)
  else (ESP_ERR_INVALID_ARG, block, F32.of_int 0).

Definition checked_pid : PidCtrl :=
  {| pid_ctrl_block := bool; pid_compute := checked_compute |}.

(** A motor whose control block was never created. *)
Definition unconfigured_motor : @motor_handle_t checked_pid :=
  @Build_motor_handle_t checked_pid 4 0 1
    {| encoder_unit := 100; encoder_channel := 200; count := 0 |}
    false 300 (F32.of_int 0) (F32.of_int 0) (F32.of_int 0).

(** The pulse counter of the bench motor standing at the given count. *)
Definition bench_count (c : Z) : hw_state :=
  pcnt_count_becomes (encoder_unit (encoder bench_motor)) c hw_reset.


(* ===================================================================== *)
(** * Facts on binary32 arithmetic *)
(* ===================================================================== *)

Lemma iter_pos_nat {A : Type} (f : A -> A) (p : positive) (x : A) :
  SpecFloat.iter_pos f p x = Nat.iter (Pos.to_nat p) f x.
Proof.
  revert x. induction p as [p IH | p IH |]; intros x; simpl SpecFloat.iter_pos.
  - rewrite !IH, Pos2Nat.inj_xI.
    replace (S (2 * Pos.to_nat p))%nat
      with (Pos.to_nat p + (Pos.to_nat p + 1))%nat by lia.
    rewrite !Nat.iter_add. reflexivity.
  - rewrite !IH, Pos2Nat.inj_xO.
    replace (2 * Pos.to_nat p)%nat with (Pos.to_nat p + Pos.to_nat p)%nat by lia.
    rewrite Nat.iter_add. reflexivity.
  - reflexivity.
Qed.

(** Shifting right a mantissa that ends in [k] zero bits loses nothing. *)
Lemma shr_1_iter_xO (k : nat) (q : positive) :
  Nat.iter k shr_1 (exact_record (Nat.iter k xO q)) = exact_record q.
Proof.
  induction k as [|k IH]; [reflexivity|].
  rewrite Nat.iter_succ_r. simpl Nat.iter at 2. exact IH.
Qed.

Lemma digits2_pos_iter_xO (k : nat) (q : positive) :
  Zpos (digits2_pos (Nat.iter k xO q)) = Zpos (digits2_pos q) + Z.of_nat k.
Proof.
  induction k as [|k IH]; [simpl; lia|].
  simpl Nat.iter. simpl digits2_pos. rewrite Pos2Z.inj_succ, IH. lia.
Qed.

Lemma Zpos_iter_xO (k : nat) (q : positive) :
  Zpos (Nat.iter k xO q) = Z.shiftl (Zpos q) (Z.of_nat k).
Proof.
  induction k as [|k IH]; [reflexivity|].
  simpl Nat.iter. rewrite Pos2Z.inj_xO, IH.
  rewrite !Z.shiftl_mul_pow2 by lia.
  rewrite Nat2Z.inj_succ, Z.pow_succ_r by lia. ring.
Qed.

Lemma mul_pow2_iter (k : nat) (m : positive) :
  (m * Nat.iter k xO 1)%positive = Nat.iter k xO m.
Proof.
  induction k as [|k IH]; simpl Nat.iter.
  - apply Pos.mul_1_r.
  - rewrite Pos.mul_xO_r, IH. reflexivity.
Qed.

Lemma digits2_pos_bound (m : positive) : Zpos m < 2 ^ Zpos (digits2_pos m).
Proof.
  induction m as [m IH | m IH |]; simpl digits2_pos.
  - rewrite Pos2Z.inj_succ, Z.pow_succ_r by lia. lia.
  - rewrite Pos2Z.inj_succ, Z.pow_succ_r by lia. lia.
  - reflexivity.
Qed.

Lemma fexp32_unfold (x : Z) : fexp 24 128 x = Z.max (x - 24) (-149).
Proof. reflexivity. Qed.

Lemma bounded_canonical (m : positive) (e : Z) :
  bounded 24 128 m e = true ->
  e = Z.max (Zpos (digits2_pos m) + e - 24) (-149) /\ e <= 104.
Proof.
  unfold bounded, canonical_mantissa. rewrite fexp32_unfold.
  intros Hb. apply andb_prop in Hb as [Hc He].
  apply Z.eqb_eq in Hc. apply Z.leb_le in He. simpl in He. lia.
Qed.

Lemma pwm_full_scale_eq : pwm_full_scale = S754_finite false 8388608 (-13).
Proof. reflexivity. Qed.

(** Scaling by the PWM full scale is exact: the product keeps the
    mantissa, up to trailing zero bits, and moves the exponent by 10. *)
Lemma mul_pwm_full_scale (s : bool) (m : positive) (e : Z) :
  bounded 24 128 m e = true -> e + 10 <= 104 ->
  exists k : nat, (k <= 10)%nat /\
    F32.mul (S754_finite s m e) pwm_full_scale
    = S754_finite s (Nat.iter k xO m) (e + 10 - Z.of_nat k).
Proof.
  intros Hb Hover. apply bounded_canonical in Hb as [Hcan _].
  rewrite pwm_full_scale_eq. unfold F32.mul, F32.prec, F32.emax.
  cbn [SFmul]. rewrite xorb_false_r.
  change 8388608%positive with (Nat.iter 23 xO 1%positive).
  rewrite mul_pow2_iter.
  unfold binary_round_aux, shr_fexp. cbn [Zdigits2].
  rewrite digits2_pos_iter_xO, !fexp32_unfold.
  set (d := Zpos (digits2_pos m)) in *.
  destruct (Z.max (d + Z.of_nat 23 + (e + -13) - 24) (-149) - (e + -13))
    as [|p|p] eqn:Hn; try lia.
  assert (Hp : 13 <= Zpos p <= 23) by lia.
  cbn [shr]. rewrite iter_pos_nat.
  set (k := (23 - Pos.to_nat p)%nat).
  assert (Hk : (23 = Pos.to_nat p + k)%nat) by (unfold k; lia).
  replace (Nat.iter 23 xO m) with (Nat.iter (Pos.to_nat p) xO (Nat.iter k xO m))
    by (rewrite <- Nat.iter_add, <- Hk; reflexivity).
  cbn [shr_record_of_loc].
  change {| shr_m := Zpos ?q; shr_r := false; shr_s := false |} with (exact_record q).
  rewrite shr_1_iter_xO.
  cbn [exact_record shr_m loc_of_shr_record round_nearest_even
       shr_record_of_loc Zdigits2].
  rewrite digits2_pos_iter_xO. fold d.
  assert (Hk' : Z.of_nat k = 23 - Zpos p) by lia.
  change (Z.of_nat 23) with 23 in Hn. clearbody d k. rewrite fexp32_unfold.
  replace (Z.max (d + Z.of_nat k + (e + -13 + Zpos p) - 24) (-149)
           - (e + -13 + Zpos p)) with 0 by lia.
  cbn [shr shr_m].
  replace (e + -13 + Zpos p <=? 128 - 24) with true
    by (symmetry; apply Z.leb_le; lia).
  exists k. split; [lia|]. f_equal. lia.
Qed.

Lemma shiftl_pos_lower (m : positive) (n : Z) :
  0 <= n -> 2 ^ n <= Z.shiftl (Zpos m) n.
Proof. intros Hn. rewrite Z.shiftl_mul_pow2 by lia. nia. Qed.

(** The duty that the cast yields from the scaled magnitude. *)
Lemma to_uint32_mul_full_scale (m : positive) (e : Z) :
  bounded 24 128 m e = true ->
  Z.shiftl (Zpos m) (e + 10) < 2 ^ 32 ->
  F32.to_uint32 (F32.mul (S754_finite false m e) pwm_full_scale)
  = Some (Z.shiftl (Zpos m) (e + 10)).
Proof.
  intros Hb Hlt.
  assert (He : e + 10 <= 104).
  { destruct (Z_le_gt_dec (e + 10) 104) as [|Hgt]; [assumption|].
    pose proof (shiftl_pos_lower m (e + 10) ltac:(lia)) as Hlow.
    assert (2 ^ 32 <= 2 ^ (e + 10)) by (apply Z.pow_le_mono_r; lia). lia. }
  destruct (mul_pwm_full_scale false m e Hb He) as (k & Hk & ->).
  cbn [F32.to_uint32]. rewrite Zpos_iter_xO, Z.shiftl_shiftl by lia.
  replace (Z.of_nat k + (e + 10 - Z.of_nat k)) with (e + 10) by lia.
  apply Z.ltb_lt in Hlt. rewrite Hlt. reflexivity.
Qed.

Lemma pwm_steps_nonneg (x : spec_float) : 0 <= pwm_steps x.
Proof.
  destruct x as [s|s| |s m e]; cbn [pwm_steps]; try lia.
  apply Z.shiftl_nonneg. lia.
Qed.

(** [pwm_steps x] is the integral part of |x| * 2^10, for |x| = m * 2^e. *)
Lemma pwm_steps_floor (s : bool) (m : positive) (e : Z) :
  let steps := pwm_steps (S754_finite s m e) in
  (0 <= e + 10 -> steps = Zpos m * 2 ^ (e + 10)) /\
  (e + 10 < 0 ->
     steps * 2 ^ (- (e + 10)) <= Zpos m < (steps + 1) * 2 ^ (- (e + 10))).
Proof.
  cbn [pwm_steps]. change PWM_TIMER_RESOLUTION with 10. split; intros Hs.
  - apply Z.shiftl_mul_pow2. assumption.
  - rewrite Z.shiftl_div_pow2 by lia.
    assert (Hpow : 0 < 2 ^ (- (e + 10))) by (apply Z.pow_pos_nonneg; lia).
    pose proof (Z.mul_div_le (Zpos m) _ Hpow).
    pose proof (Z.mul_succ_div_gt (Zpos m) _ Hpow). lia.
Qed.

Lemma magnitude_le_one (m : positive) (e : Z) :
  bounded 24 128 m e = true ->
  e < -23 \/ (e = -23 /\ Zpos m <= 8388608) ->
  Z.shiftl (Zpos m) (e + 10) <= 1024.
Proof.
  intros Hb Hle. apply bounded_canonical in Hb as [Hcan _].
  pose proof (digits2_pos_bound m) as Hm.
  assert (Hd : Zpos (digits2_pos m) <= 24) by lia.
  assert (Hm24 : Zpos m < 2 ^ 24).
  { eapply Z.lt_le_trans; [exact Hm|]. apply Z.pow_le_mono_r; lia. }
  rewrite Z.shiftl_div_pow2 by lia.
  destruct Hle as [Hlt | [-> Hmle]].
  - assert (Hpow : 2 ^ 14 <= 2 ^ (- (e + 10))) by (apply Z.pow_le_mono_r; lia).
    transitivity (Zpos m / 2 ^ 14).
    + apply Z.div_le_compat_l; lia.
    + apply Z.lt_le_incl, Z.div_lt_upper_bound; lia.
  - change (- (-23 + 10)) with 13.
    apply Z.lt_succ_r, Z.div_lt_upper_bound; lia.
Qed.

Lemma compare_cont_le (m q : positive) :
  Pos.compare_cont Eq m q <> Gt -> Zpos m <= Zpos q.
Proof.
  fold (Pos.compare m q). intros Hc. apply Pos2Z.pos_le_pos. exact Hc.
Qed.

Lemma compare_cont_ge (q m : positive) :
  Pos.compare_cont Eq q m <> Lt -> Zpos m <= Zpos q.
Proof.
  fold (Pos.compare q m). intros Hc.
  apply Pos2Z.pos_le_pos, Pos.compare_ge_iff. exact Hc.
Qed.

Lemma leb_one_inv (m : positive) (e : Z) :
  F32.leb (S754_finite false m e) (F32.of_int 1) = true ->
  e < -23 \/ (e = -23 /\ Zpos m <= 8388608).
Proof.
  change (F32.of_int 1) with (S754_finite false 8388608 (-23)).
  unfold F32.leb, SFleb. cbn [SFcompare].
  destruct (Z.compare_spec e (-23)) as [Heq|Hlt|Hgt]; intros Hle.
  - right. split; [exact Heq|]. apply compare_cont_le.
    intros Hc. rewrite Hc in Hle. discriminate Hle.
  - left. exact Hlt.
  - discriminate Hle.
Qed.

Lemma minus_one_leb_inv (m : positive) (e : Z) :
  F32.leb (F32.of_int (-1)) (S754_finite true m e) = true ->
  e < -23 \/ (e = -23 /\ Zpos m <= 8388608).
Proof.
  change (F32.of_int (-1)) with (S754_finite true 8388608 (-23)).
  unfold F32.leb, SFleb. cbn [SFcompare].
  destruct (Z.compare_spec (-23) e) as [Heq|Hlt|Hgt]; intros Hle.
  - right. split; [symmetry; exact Heq|]. apply compare_cont_ge.
    intros Hc. rewrite Hc in Hle. discriminate Hle.
  - discriminate Hle.
  - left. exact Hgt.
Qed.

Lemma pwm_steps_unit_range (x : spec_float) :
  F32.valid x = true ->
  F32.leb (F32.of_int (-1)) x = true ->
  F32.leb x (F32.of_int 1) = true ->
  pwm_steps x <= 1024.
Proof.
  destruct x as [s|s| |s m e]; cbn [pwm_steps]; try lia.
  intros Hv Hlo Hhi. change PWM_TIMER_RESOLUTION with 10.
  apply magnitude_le_one; [exact Hv|].
  destruct s; [apply minus_one_leb_inv | apply leb_one_inv]; assumption.
Qed.

Lemma eqb_zero_inv (power : spec_float) :
  F32.eqb power (F32.of_int 0) = true -> exists s, power = S754_zero s.
Proof.
  destruct power as [s|s| |s m e]; try destruct s; try discriminate; eauto.
Qed.

(** ** Facts on [int] arithmetic *)

Lemma wrap_mod (z : Z) : CInt.wrap z mod CInt.modulus = z mod CInt.modulus.
Proof.
  unfold CInt.wrap. rewrite Zminus_mod_idemp_l. f_equal. lia.
Qed.

Lemma wrap_in_range (z : Z) : CInt.in_range z -> CInt.wrap z = z.
Proof.
  unfold CInt.in_range, CInt.wrap, CInt.modulus, CInt.half_modulus. intros Hr.
  rewrite Z.mod_small; lia.
Qed.

Lemma last_cons_cons {A : Type} (x : A) (l : list A) (d : A) :
  List.last (x :: l) d = List.last l x.
Proof.
  revert x d. induction l as [|y l IH]; intros x d; [reflexivity|].
  change (List.last (x :: y :: l) d) with (List.last (y :: l) d).
  rewrite !IH. reflexivity.
Qed.

(** The deltas of successive readings add up to the net change of the
    counter, modulo the range of [int]. *)
Lemma deltas_telescope_mod (counts : list Z) (c0 : Z) :
  total (zip_with CInt.sub counts (c0 :: counts)) mod CInt.modulus
  = (List.last counts c0 - c0) mod CInt.modulus.
Proof.
  revert c0. induction counts as [|c counts IH]; intros c0.
  - cbn. f_equal. lia.
  - rewrite last_cons_cons. cbn [zip_with total foldr].
    fold (total (zip_with CInt.sub counts (c :: counts))).
    rewrite Z.add_mod by (unfold CInt.modulus; lia).
    rewrite IH. unfold CInt.sub. rewrite wrap_mod.
    rewrite <- Z.add_mod by (unfold CInt.modulus; lia).
    f_equal. lia.
Qed.

(** Without overflow of the subtraction they add up exactly. *)
Lemma deltas_telescope_exact (counts : list Z) (c0 : Z) :
  Forall CInt.in_range (zip_with Z.sub counts (c0 :: counts)) ->
  total (zip_with CInt.sub counts (c0 :: counts)) = List.last counts c0 - c0.
Proof.
  revert c0. induction counts as [|c counts IH]; intros c0 Hr.
  - cbn. lia.
  - rewrite last_cons_cons. cbn [zip_with] in *. cbn [total foldr].
    fold (total (zip_with CInt.sub counts (c :: counts))).
    apply Forall_cons in Hr as [Hc Hr].
    rewrite (IH c Hr). unfold CInt.sub. rewrite (wrap_in_range _ Hc). lia.
Qed.

(* ===================================================================== *)
(** * The motor actuator *)
(* ===================================================================== *)

Section MotorFacts.
Context {pid : PidCtrl}.
Implicit Types (motor : motor_handle_t) (hw : hw_state) (power : spec_float).

Lemma driven_chan_a motor y x act hw :
  channel_duty (driven motor y x act hw) (chan_a motor) = x
  /\ channel_output (driven motor y x act hw) (chan_a motor) = x.
Proof.
  unfold driven, channel_duty, channel_output, duty_of; cbn.
  rewrite lookup_insert_eq. cbn.
  destruct (decide (chan_b motor = chan_a motor)) as [->|Hne].
  - rewrite !lookup_insert_eq. unfold duty_of. rewrite lookup_insert_eq. auto.
  - rewrite lookup_insert_ne, lookup_insert_eq by done. unfold duty_of.
    rewrite lookup_insert_eq. auto.
Qed.

Lemma driven_chan_b motor y x act hw :
  chan_a motor <> chan_b motor \/ x = y ->
  channel_duty (driven motor y x act hw) (chan_b motor) = y
  /\ channel_output (driven motor y x act hw) (chan_b motor) = y.
Proof.
  intros [Hne | ->].
  - unfold driven, channel_duty, channel_output, duty_of; cbn.
    rewrite lookup_insert_eq. cbn. unfold duty_of.
    rewrite lookup_insert_ne, lookup_insert_eq by done. auto.
  - destruct (decide (chan_a motor = chan_b motor)) as [Heq | Hne].
    + rewrite <- Heq. apply driven_chan_a.
    + unfold driven, channel_duty, channel_output, duty_of; cbn.
      rewrite lookup_insert_eq. cbn. unfold duty_of.
      rewrite lookup_insert_ne, lookup_insert_eq by done. auto.
Qed.

(** When the two handles name one channel it holds the duty written
    last. *)
Lemma driven_chan_b_any motor y x act hw :
  (channel_duty (driven motor y x act hw) (chan_b motor) = y
   /\ channel_output (driven motor y x act hw) (chan_b motor) = y)
  \/ (channel_duty (driven motor y x act hw) (chan_b motor) = x
      /\ channel_output (driven motor y x act hw) (chan_b motor) = x).
Proof.
  destruct (decide (chan_a motor = chan_b motor)) as [Heq | Hne].
  - right. rewrite <- Heq. apply driven_chan_a.
  - left. apply driven_chan_b. auto.
Qed.

Lemma driven_edge motor y x act hw :
  edge_action (driven motor y x act hw) (encoder_channel (encoder motor))
  = Some (act, act).
Proof. unfold driven, edge_action; cbn. apply lookup_insert_eq. Qed.

(** The hold action written at zero power replaces the one of the branch
    taken before it. *)
Lemma driven_hold motor y x act hw :
  ledc_update_duty (chan_b motor)
    (ledc_update_duty (chan_a motor)
       (pcnt_channel_set_edge_action (encoder_channel (encoder motor))
          PCNT_CHANNEL_EDGE_ACTION_HOLD PCNT_CHANNEL_EDGE_ACTION_HOLD
          (pcnt_channel_set_edge_action (encoder_channel (encoder motor)) act act
             (ledc_set_duty (chan_a motor) x
                (ledc_set_duty (chan_b motor) y hw)))))
  = driven motor y x PCNT_CHANNEL_EDGE_ACTION_HOLD hw.
Proof.
  unfold driven, ledc_update_duty, pcnt_channel_set_edge_action; cbn.
  rewrite insert_insert_eq. reflexivity.
Qed.

(** What can be read back from a [driven] state on distinct channels. *)
Ltac driven_facts motor y x act hw Hne :=
  pose proof (driven_chan_a motor y x act hw) as [? ?];
  pose proof (driven_chan_b motor y x act hw Hne) as [? ?];
  pose proof (driven_edge motor y x act hw).

(** ** The three branches of [set_motor_power] *)

Lemma set_motor_power_pos motor (m : positive) (e : Z) hw :
  set_motor_power motor (S754_finite false m e) hw
  = match F32.to_uint32 (F32.mul (S754_finite false m e) pwm_full_scale) with
    | Some duty => Done (driven motor duty 0 PCNT_CHANNEL_EDGE_ACTION_DECREASE hw)
    | None => Undefined
    end.
Proof.
  unfold set_motor_power.
  change (F32.ltb (F32.of_int 0) (S754_finite false m e)) with true.
  change (F32.eqb (S754_finite false m e) (F32.of_int 0)) with false.
  cbn iota. destruct (F32.to_uint32 _); reflexivity.
Qed.

Lemma set_motor_power_neg motor (m : positive) (e : Z) hw :
  set_motor_power motor (S754_finite true m e) hw
  = match F32.to_uint32 (F32.mul (S754_finite false m e) pwm_full_scale) with
    | Some duty => Done (driven motor 0 duty PCNT_CHANNEL_EDGE_ACTION_INCREASE hw)
    | None => Undefined
    end.
Proof.
  unfold set_motor_power.
  change (F32.ltb (F32.of_int 0) (S754_finite true m e)) with false.
  change (F32.eqb (S754_finite true m e) (F32.of_int 0)) with false.
  cbn iota. change (F32.opp (S754_finite true m e)) with (S754_finite false m e).
  destruct (F32.to_uint32 _); reflexivity.
Qed.

Lemma set_motor_power_zero motor (s : bool) hw :
  set_motor_power motor (S754_zero s) hw
  = Done (driven motor 0 0 PCNT_CHANNEL_EDGE_ACTION_HOLD hw).
Proof.
  unfold set_motor_power.
  change (F32.ltb (F32.of_int 0) (S754_zero s)) with false.
  change (F32.eqb (S754_zero s) (F32.of_int 0)) with true.
  cbn iota. rewrite pwm_full_scale_eq.
  cbn [F32.opp SFopp F32.mul SFmul F32.to_uint32 of_cast].
  cbn [mbind outcome_bind mret outcome_ret]. rewrite driven_hold. reflexivity.
Qed.

Lemma set_motor_power_forward motor (m : positive) (e : Z) hw :
  bounded 24 128 m e = true ->
  pwm_steps (S754_finite false m e) < 2 ^ 32 ->
  set_motor_power motor (S754_finite false m e) hw
  = Done (driven motor (pwm_steps (S754_finite false m e)) 0
            PCNT_CHANNEL_EDGE_ACTION_DECREASE hw).
Proof.
  intros Hb Hlt.
  rewrite set_motor_power_pos, (to_uint32_mul_full_scale m e Hb Hlt). reflexivity.
Qed.

Lemma set_motor_power_reverse motor (m : positive) (e : Z) hw :
  bounded 24 128 m e = true ->
  pwm_steps (S754_finite true m e) < 2 ^ 32 ->
  set_motor_power motor (S754_finite true m e) hw
  = Done (driven motor 0 (pwm_steps (S754_finite true m e))
            PCNT_CHANNEL_EDGE_ACTION_INCREASE hw).
Proof.
  intros Hb Hlt.
  rewrite set_motor_power_neg, (to_uint32_mul_full_scale m e Hb Hlt). reflexivity.
Qed.

(** For a power in [-1, 1] the call completes, and both duties written lie
    within the full scale. *)
Lemma set_motor_power_bounded motor power hw :
  F32.valid power = true ->
  F32.leb (F32.of_int (-1)) power = true ->
  F32.leb power (F32.of_int 1) = true ->
  exists duty_b duty_a act,
    set_motor_power motor power hw = Done (driven motor duty_b duty_a act hw)
    /\ 0 <= duty_b <= 1024 /\ 0 <= duty_a <= 1024.
Proof.
  intros Hv Hlo Hhi.
  pose proof (pwm_steps_unit_range power Hv Hlo Hhi) as Hup.
  pose proof (pwm_steps_nonneg power) as Hnn.
  destruct power as [s|s| |s m e].
  - exists 0, 0, PCNT_CHANNEL_EDGE_ACTION_HOLD.
    split; [apply set_motor_power_zero | lia].
  - destruct s; discriminate.
  - discriminate.
  - destruct s.
    + exists 0, (pwm_steps (S754_finite true m e)), PCNT_CHANNEL_EDGE_ACTION_INCREASE.
      split; [apply set_motor_power_reverse; [exact Hv | lia] | lia].
    + exists (pwm_steps (S754_finite false m e)), 0, PCNT_CHANNEL_EDGE_ACTION_DECREASE.
      split; [apply set_motor_power_forward; [exact Hv | lia] | lia].
Qed.

(** C7. A power command of exactly zero (of either sign) leaves both
    channels of the motor at duty 0, in the duty registers and at the
    outputs, and the edge action of its encoder channel at hold. *)
Theorem set_motor_power_zero_stops motor power hw :
  F32.eqb power (F32.of_int 0) = true ->
  exists hw',
    set_motor_power motor power hw = Done hw'
    /\ channel_duty hw' (chan_a motor) = 0
    /\ channel_duty hw' (chan_b motor) = 0
    /\ channel_output hw' (chan_a motor) = 0
    /\ channel_output hw' (chan_b motor) = 0
    /\ edge_action hw' (encoder_channel (encoder motor))
       = Some (PCNT_CHANNEL_EDGE_ACTION_HOLD, PCNT_CHANNEL_EDGE_ACTION_HOLD).
Proof.
  intros Hz. apply eqb_zero_inv in Hz as [s ->].
  eexists. split; [apply set_motor_power_zero|].
  driven_facts motor 0 0 PCNT_CHANNEL_EDGE_ACTION_HOLD hw
    (or_intror (chan_a motor <> chan_b motor) (eq_refl 0)).
  auto 10.
Qed.

(** C4.  The counting direction that [set_motor_power] selects is the
    reverse of the one the drive calls for.  For a motor on two distinct
    channels and a finite power whose scaled magnitude fits the duty type:
    a positive power sets the duty of [chan_b] to the integral part of
    power * 1024 and the duty of [chan_a] to 0, and sets the edge action
    to decrease, not to increase; a negative power sets the duty of
    [chan_a] to the integral part of -power * 1024 and the duty of [chan_b]
    to 0, and sets the edge action to increase, not to decrease. *)
Theorem set_motor_power_direction motor power hw :
  chan_a motor <> chan_b motor ->
  F32.valid power = true ->
  F32.is_finite power = true ->
  pwm_steps power < 2 ^ 32 ->
  exists hw',
    set_motor_power motor power hw = Done hw'
    /\ (F32.ltb (F32.of_int 0) power = true ->
          edge_action hw' (encoder_channel (encoder motor))
          = Some (PCNT_CHANNEL_EDGE_ACTION_DECREASE, PCNT_CHANNEL_EDGE_ACTION_DECREASE)
          /\ channel_duty hw' (chan_b motor) = pwm_steps power
          /\ channel_output hw' (chan_b motor) = pwm_steps power
          /\ channel_duty hw' (chan_a motor) = 0
          /\ channel_output hw' (chan_a motor) = 0)
    /\ (F32.ltb power (F32.of_int 0) = true ->
          edge_action hw' (encoder_channel (encoder motor))
          = Some (PCNT_CHANNEL_EDGE_ACTION_INCREASE, PCNT_CHANNEL_EDGE_ACTION_INCREASE)
          /\ channel_duty hw' (chan_a motor) = pwm_steps power
          /\ channel_output hw' (chan_a motor) = pwm_steps power
          /\ channel_duty hw' (chan_b motor) = 0
          /\ channel_output hw' (chan_b motor) = 0).
Proof.
  intros Hne Hv Hfin Hlt.
  destruct power as [s|s| |s m e]; try discriminate Hfin.
  - eexists. split; [apply set_motor_power_zero|].
    split; intros Hs; destruct s; discriminate Hs.
  - destruct s.
    + eexists. split; [apply (set_motor_power_reverse motor m e hw Hv Hlt)|].
      split; intros Hs; [discriminate Hs|].
      driven_facts motor 0 (pwm_steps (S754_finite true m e))
        PCNT_CHANNEL_EDGE_ACTION_INCREASE hw
        (or_introl (pwm_steps (S754_finite true m e) = 0) Hne).
      auto 10.
    + eexists. split; [apply (set_motor_power_forward motor m e hw Hv Hlt)|].
      split; intros Hs; [|discriminate Hs].
      driven_facts motor (pwm_steps (S754_finite false m e)) 0
        PCNT_CHANNEL_EDGE_ACTION_DECREASE hw
        (or_introl (0 = pwm_steps (S754_finite false m e)) Hne).
      auto 10.
Qed.

(** C5, amended.  The actuator does not clamp; for every power within
    [-1.0, 1.0] the call completes and the duty of both channels, in the
    duty registers and at the outputs, lies within the full scale
    [0, 1024]. *)
Theorem set_motor_power_unit_range motor power hw :
  F32.valid power = true ->
  F32.leb (F32.of_int (-1)) power = true ->
  F32.leb power (F32.of_int 1) = true ->
  exists hw',
    set_motor_power motor power hw = Done hw'
    /\ 0 <= channel_duty hw' (chan_a motor) <= 1024
    /\ 0 <= channel_duty hw' (chan_b motor) <= 1024
    /\ 0 <= channel_output hw' (chan_a motor) <= 1024
    /\ 0 <= channel_output hw' (chan_b motor) <= 1024.
Proof.
  intros Hv Hlo Hhi.
  destruct (set_motor_power_bounded motor power hw Hv Hlo Hhi)
    as (y & x & act & Hrun & Hy & Hx).
  eexists. split; [exact Hrun|].
  destruct (driven_chan_a motor y x act hw) as [-> ->].
  destruct (driven_chan_b_any motor y x act hw) as [[-> ->] | [-> ->]]; auto.
Qed.

(** C9. For a motor on two distinct channels and any power value,
    [set_motor_power] never aborts; when it completes, one of the two
    channels has duty 0, in its duty register and at its output; and it is
    undefined only where the conversion of the scaled magnitude to the
    duty type is. *)
Theorem set_motor_power_one_channel_idle motor power hw :
  chan_a motor <> chan_b motor ->
  match set_motor_power motor power hw with
  | Done hw' =>
      (channel_duty hw' (chan_a motor) = 0 /\ channel_output hw' (chan_a motor) = 0)
      \/ (channel_duty hw' (chan_b motor) = 0 /\ channel_output hw' (chan_b motor) = 0)
  | Aborted _ => False
  | Undefined => F32.to_uint32 (F32.mul (SFabs power) pwm_full_scale) = None
  end.
Proof.
  intros Hne. destruct power as [s|s| |s m e].
  - rewrite set_motor_power_zero. left. apply driven_chan_a.
  - destruct s; reflexivity.
  - reflexivity.
  - destruct s.
    + rewrite set_motor_power_neg. cbn [SFabs].
      destruct (F32.to_uint32 _) as [duty|]; [|reflexivity].
      right. apply driven_chan_b. auto.
    + rewrite set_motor_power_pos. cbn [SFabs].
      destruct (F32.to_uint32 _) as [duty|]; [|reflexivity].
      left. apply driven_chan_a.
Qed.

(** C10. [set_motor_velocity] stores the commanded velocity and leaves
    every other field of the motor as it was. *)
Theorem set_motor_velocity_frame motor (velocity : spec_float) :
  let motor' := set_motor_velocity motor velocity in
  cmd_velocity motor' = velocity
  /\ reported_speed motor' = reported_speed motor
  /\ cmd_power motor' = cmd_power motor
  /\ encoder motor' = encoder motor
  /\ pid_controller motor' = pid_controller motor
  /\ pid_timer motor' = pid_timer motor
  /\ chan_a motor' = chan_a motor
  /\ chan_b motor' = chan_b motor
  /\ enable_pin motor' = enable_pin motor.
Proof. cbn. repeat split. Qed.

End MotorFacts.

(* ===================================================================== *)
(** * The velocity regulator *)
(* ===================================================================== *)

Section TickFacts.
Context {pid : PidCtrl}.
Hypothesis pid_ok : pid_output_bounded.

(** A tick completes, and stores the count it read as the new snapshot. *)
Lemma pid_callback_done (motor : motor_handle_t) (hw : hw_state) :
  exists motor' hw',
    pid_callback motor hw = Done (motor', hw')
    /\ count (encoder motor') = pcnt_unit_get_count (encoder_unit (encoder motor)) hw
    /\ encoder_unit (encoder motor') = encoder_unit (encoder motor)
    /\ reported_speed motor'
       = F64.to_f32
           (F64.mul (PULSES_TO_RAD (tick_pulses_elapsed motor hw))
                    (F64.div PID_LOOP_PERIOD_MS (F64.of_int 1000))).
Proof.
  unfold pid_callback, tick_pulses_elapsed.
  destruct (pid_ok (pid_controller motor)
              (F32.sub (cmd_velocity motor)
                 (F64.to_f32
                    (F64.mul
                       (PULSES_TO_RAD
                          (CInt.sub
                             (pcnt_unit_get_count (encoder_unit (encoder motor)) hw)
                             (count (encoder motor))))
                       (F64.div PID_LOOP_PERIOD_MS (F64.of_int 1000))))))
    as (block' & power & -> & Hv & Hlo & Hhi).
  cbn [ESP_ERROR_CHECK mbind outcome_bind].
  change (ESP_OK =? ESP_OK) with true. cbn iota.
  match goal with
  | |- context [set_motor_power ?m power hw] =>
      destruct (set_motor_power_bounded m power hw Hv Hlo Hhi)
        as (y & x & act & -> & _)
  end.
  cbn [mbind outcome_bind mret outcome_ret]. eauto 10.
Qed.

Lemma control_ticks_done (counts : list Z) (motor : motor_handle_t) (hw : hw_state) :
  exists motor' hw',
    control_ticks counts motor hw
    = Done (zip_with CInt.sub counts (count (encoder motor) :: counts), motor', hw')
    /\ count (encoder motor') = List.last counts (count (encoder motor))
    /\ encoder_unit (encoder motor') = encoder_unit (encoder motor).
Proof.
  revert motor hw. induction counts as [|c counts IH]; intros motor hw.
  - cbn. eauto.
  - cbn [control_ticks].
    destruct (pid_callback_done motor
                (pcnt_count_becomes (encoder_unit (encoder motor)) c hw))
      as (motor1 & hw1 & -> & Hc & Hu & _).
    cbn [mbind outcome_bind].
    destruct (IH motor1 hw1) as (motor2 & hw2 & -> & Hc2 & Hu2).
    cbn [mbind outcome_bind mret outcome_ret].
    assert (Hread : pcnt_unit_get_count (encoder_unit (encoder motor))
                      (pcnt_count_becomes (encoder_unit (encoder motor)) c hw) = c).
    { unfold pcnt_unit_get_count, pcnt_count_becomes; cbn.
      rewrite lookup_insert_eq. reflexivity. }
    rewrite Hread in Hc. rewrite Hc in *.
    exists motor2, hw2. split; [|split].
    + unfold tick_pulses_elapsed. rewrite Hread. reflexivity.
    + rewrite last_cons_cons. exact Hc2.
    + congruence.
Qed.

(** A run completes; the ticks report the speeds of the successive count
    differences, and the snapshot ends at the last count read. *)
Lemma control_reports_done (counts : list Z) (motor : motor_handle_t)
    (hw : hw_state) :
  exists motor' hw',
    control_ticks counts motor hw
    = Done (zip_with CInt.sub counts (count (encoder motor) :: counts), motor', hw')
    /\ control_reports counts motor hw
       = Done (speed_of_pulses
                 <$> zip_with CInt.sub counts (count (encoder motor) :: counts),
               motor', hw')
    /\ count (encoder motor') = List.last counts (count (encoder motor)).
Proof.
  revert motor hw. induction counts as [|c counts IH]; intros motor hw.
  - cbn. eauto.
  - cbn [control_ticks control_reports].
    destruct (pid_callback_done motor
                (pcnt_count_becomes (encoder_unit (encoder motor)) c hw))
      as (motor1 & hw1 & -> & Hc & _ & Hs).
    cbn [mbind outcome_bind].
    destruct (IH motor1 hw1) as (motor2 & hw2 & -> & -> & Hc2).
    cbn [mbind outcome_bind mret outcome_ret].
    assert (Hread : pcnt_unit_get_count (encoder_unit (encoder motor))
                      (pcnt_count_becomes (encoder_unit (encoder motor)) c hw) = c).
    { unfold pcnt_unit_get_count, pcnt_count_becomes; cbn.
      rewrite lookup_insert_eq. reflexivity. }
    assert (Hd : tick_pulses_elapsed motor
                   (pcnt_count_becomes (encoder_unit (encoder motor)) c hw)
                 = CInt.sub c (count (encoder motor))).
    { unfold tick_pulses_elapsed. rewrite Hread. reflexivity. }
    rewrite Hread in Hc. rewrite Hd in *. rewrite Hs, Hc in *.
    exists motor2, hw2. split; [reflexivity|]. split; [reflexivity|].
    rewrite last_cons_cons. exact Hc2.
Qed.

(** C8. With a controller that keeps to its configured output range, every
    sequence of control ticks completes; the delta of each tick is the
    count it read minus the snapshot of the tick before, in [int]
    arithmetic, and it is this delta whose speed the tick leaves in
    [reported_speed]; the snapshot ends at the last count read; and the
    deltas add up to the net change of the counter since the first
    snapshot, modulo 2^32, and exactly when no subtraction overflows. *)
Theorem encoder_deltas_telescope (counts : list Z) (motor : motor_handle_t)
    (hw : hw_state) :
  exists deltas motor' hw',
    control_ticks counts motor hw = Done (deltas, motor', hw')
    /\ control_reports counts motor hw
       = Done (speed_of_pulses <$> deltas, motor', hw')
    /\ deltas = zip_with CInt.sub counts (count (encoder motor) :: counts)
    /\ count (encoder motor') = List.last counts (count (encoder motor))
    /\ total deltas mod CInt.modulus
       = (List.last counts (count (encoder motor)) - count (encoder motor))
           mod CInt.modulus
    /\ (Forall CInt.in_range
          (zip_with Z.sub counts (count (encoder motor) :: counts)) ->
        total deltas
        = List.last counts (count (encoder motor)) - count (encoder motor)).
Proof.
  destruct (control_reports_done counts motor hw)
    as (motor' & hw' & Hrun & Hreports & Hc).
  eexists _, motor', hw'. split; [exact Hrun|]. split; [exact Hreports|].
  split; [reflexivity|]. split; [exact Hc|]. split.
  - apply deltas_telescope_mod.
  - apply deltas_telescope_exact.
Qed.

End TickFacts.

(* ===================================================================== *)
(** * The socket tasks *)
(* ===================================================================== *)

Section SocketFacts.
Context {pb : PbSchema}.
Implicit Types (rx_callbacks : callback_table) (payload : list Byte.byte).

(** A datagram whose envelope does not announce a velocity command (cut
    short, or of another or unknown type) reaches no callback: the failure
    is logged and the loop goes on. *)
Lemma rx_iteration_other_type rx_callbacks payload type stream :
  decode_unionmessage_type (pb_istream_from_buffer (take buffer_size payload))
  = (type, stream) ->
  type <> Some TwistCmd_fields ->
  rx_iteration rx_callbacks (RecvDatagram payload)
  = ([RxLog (LogDecodeFailed (PB_GET_ERROR stream))], RxContinue).
Proof.
  intros Htype Hne. unfold rx_iteration. rewrite Htype.
  destruct (decide (type = Some TwistCmd_fields)); [contradiction | reflexivity].
Qed.

(** C2. A datagram announced as a velocity command whose body fails to
    decode still reaches the registered callback, with the message as far
    as it was filled in; the decode failure is logged after the call. *)
Theorem rx_iteration_truncated_body rx_callbacks payload
    (callback : nat) (stream stream' : pb_istream_t) (msg : TwistCmd) :
  rx_callbacks !! rx_index eTwistCmd = Some (Some callback) ->
  decode_unionmessage_type (pb_istream_from_buffer (take buffer_size payload))
  = (Some TwistCmd_fields, stream) ->
  decode_unionmessage_contents stream TwistCmd_fields TwistCmd_zero
  = (false, msg, stream') ->
  rx_iteration rx_callbacks (RecvDatagram payload)
  = ([RxCallback callback msg; RxLog (LogDecodeFailed (PB_GET_ERROR stream'))],
     RxContinue).
Proof.
  intros Hcb Htype Hbody. unfold rx_iteration. rewrite Htype.
  destruct (decide (Some TwistCmd_fields = Some TwistCmd_fields)); [|contradiction].
  rewrite Hbody, Hcb. reflexivity.
Qed.

(** While the task is still receiving, what it does next only depends on
    what arrives next. *)
Lemma socket_rx_task_app rx_callbacks (pre rest : list recv_result)
    (events : list rx_event) :
  socket_rx_task rx_callbacks pre = (events, RxBlocked) ->
  socket_rx_task rx_callbacks (pre ++ rest)
  = (events ++ (socket_rx_task rx_callbacks rest).1,
     (socket_rx_task rx_callbacks rest).2).
Proof.
  revert events. induction pre as [|r pre IH]; intros events Hrun.
  - cbn in Hrun. injection Hrun as <-. cbn.
    destruct (socket_rx_task _ rest); reflexivity.
  - cbn [socket_rx_task app] in *.
    destruct (rx_iteration rx_callbacks r) as [ev control].
    destruct control; try discriminate Hrun.
    destruct (socket_rx_task rx_callbacks pre) as [ev' exit] eqn:Hpre.
    injection Hrun as <- ->.
    rewrite (IH ev' eq_refl). cbn.
    rewrite (assoc_L (++)). reflexivity.
Qed.

(** C3, amended.  When [recvfrom] fails while the receive task is running,
    the error is logged and the task returns: whatever arrives afterwards
    is not read. *)
Theorem socket_rx_task_returns_on_failure rx_callbacks
    (pre post : list recv_result) (errno : Z) (events : list rx_event) :
  socket_rx_task rx_callbacks pre = (events, RxBlocked) ->
  socket_rx_task rx_callbacks (pre ++ RecvFailed errno :: post)
  = (events ++ [RxLog (LogRecvfromFailed errno)], RxReturned).
Proof.
  intros Hpre. rewrite (socket_rx_task_app _ _ _ _ Hpre). reflexivity.
Qed.

Lemma buffer_write_take (written buffer : list Byte.byte) :
  take (length written) (buffer_write written buffer) = written.
Proof. unfold buffer_write. apply take_app_length. Qed.

(** C6. When the encoder fails on an envelope, the send loop logs the
    failure and still calls [sendto], with the bytes the encoder wrote
    before it failed. *)
Theorem tx_iteration_serialize_failure (msg : UdpPacket)
    (tx_buffer written : list Byte.byte) :
  pb_encode buffer_size UdpPacket_fields msg = (false, written) ->
  tx_iteration msg tx_buffer
  = ([TxLog LogSerializeFailed; TxSendto written], buffer_write written tx_buffer).
Proof.
  intros Henc. unfold tx_iteration. rewrite Henc, buffer_write_take. reflexivity.
Qed.

(** Every envelope taken from the queue causes exactly one [sendto],
    whether its encoding succeeded or not: nothing is retried. *)
Lemma socket_tx_task_sends_each_once (queue : list UdpPacket)
    (tx_buffer : list Byte.byte) :
  length (filter is_sendto (socket_tx_task queue tx_buffer)) = length queue.
Proof.
  revert tx_buffer. induction queue as [|msg queue IH]; intros tx_buffer;
    [reflexivity|].
  cbn [socket_tx_task]. unfold tx_iteration.
  destruct (pb_encode buffer_size UdpPacket_fields msg) as [status written].
  rewrite filter_app, length_app, IH.
  destruct status; reflexivity.
Qed.

End SocketFacts.

(* ===================================================================== *)
(** * The firmware on concrete inputs *)
(* ===================================================================== *)

Lemma sign_pid_bounded : pid_output_bounded (pid := sign_pid).
Proof.
  intros block error. cbn [pid_compute sign_pid]. unfold sign_compute.
  destruct (F32.ltb (F32.of_int 0) error);
    [|destruct (F32.ltb error (F32.of_int 0))];
    eexists tt, _; (split; [reflexivity|]); repeat split.
Qed.

(** C1. On a tick that reads 30 pulses (one wheel turn in 10 ms), the
    regulator reports the displacement multiplied by the period, about
    0.0628, where the displacement divided by the period is about
    628.3 rad/s. *)
Theorem pid_callback_speed_times_period :
  exists motor' hw',
    pid_callback bench_motor (pcnt_count_becomes 100 30 hw_reset)
    = Done (motor', hw')
    /\ reported_speed motor' = S754_finite false 8433149 (-27)
    /\ spec_reported_velocity 30 = S754_finite false 10294371 (-14)
    /\ F32.ltb (reported_speed motor') (F32.of_int 1) = true
    /\ F32.ltb (F32.of_int 600) (spec_reported_velocity 30) = true.
Proof.
  destruct (pid_callback_done sign_pid_bounded bench_motor
              (pcnt_count_becomes 100 30 hw_reset))
    as (motor' & hw' & Hrun & _ & _ & Hspeed).
  exists motor', hw'. split; [exact Hrun|]. rewrite Hspeed.
  repeat split; vm_compute; reflexivity.
Qed.

Lemma rx_iteration_truncated_body_witness :
  rx_iteration (pb := Wire.schema) bench_callbacks
    (RecvDatagram Wire.truncated_twist_datagram)
  = ([RxCallback (pb := Wire.schema) 7 Wire.twist_zero;
      RxLog (LogDecodeFailed "end-of-stream")],
     RxContinue).
Proof.
  apply (rx_iteration_truncated_body (pb := Wire.schema) bench_callbacks
           Wire.truncated_twist_datagram 7
           {| Wire.bytes_left := [Byte.x00; Byte.x00]; Wire.errmsg := "(none)" |}
           {| Wire.bytes_left := []; Wire.errmsg := "end-of-stream" |}
           Wire.twist_zero); reflexivity.
Defined.

(** With a receive failure ahead of it, a well-formed velocity command is
    never read, although on its own it reaches the callback. *)
Lemma rx_task_ends_at_recv_failure :
  socket_rx_task (pb := Wire.schema) bench_callbacks
    [RecvFailed 11; RecvDatagram Wire.twist_datagram]
  = ([RxLog (LogRecvfromFailed 11)], RxReturned)
  /\ socket_rx_task (pb := Wire.schema) bench_callbacks
       [RecvDatagram Wire.twist_datagram]
     = ([RxCallback (pb := Wire.schema) 7
           {| Wire.linear := [Byte.x00; Byte.x00; Byte.x80; Byte.x3f];
              Wire.angular := Wire.word_zero |}],
        RxBlocked).
Proof. split; reflexivity. Qed.

Lemma socket_rx_task_returns_on_failure_witness :
  socket_rx_task (pb := Wire.schema) bench_callbacks
    [RecvDatagram Wire.twist_datagram]
  = ([RxCallback (pb := Wire.schema) 7
        {| Wire.linear := [Byte.x00; Byte.x00; Byte.x80; Byte.x3f];
           Wire.angular := Wire.word_zero |}],
     RxBlocked)
  /\ socket_rx_task (pb := Wire.schema) bench_callbacks
       ([RecvDatagram Wire.twist_datagram]
          ++ RecvFailed 11 :: [RecvDatagram Wire.twist_datagram])
     = ([RxCallback (pb := Wire.schema) 7
           {| Wire.linear := [Byte.x00; Byte.x00; Byte.x80; Byte.x3f];
              Wire.angular := Wire.word_zero |}]
          ++ [RxLog (LogRecvfromFailed 11)],
        RxReturned).
Proof.
  split; [reflexivity|].
  apply (socket_rx_task_returns_on_failure (pb := Wire.schema)); reflexivity.
Defined.

Lemma tx_iteration_serialize_failure_witness :
  tx_iteration (pb := Wire.schema) Wire.oversize_packet (replicate buffer_size Byte.x00)
  = ([TxLog LogSerializeFailed;
      TxSendto (take buffer_size (Byte.x02 :: Wire.oversize_packet))],
     buffer_write (take buffer_size (Byte.x02 :: Wire.oversize_packet))
       (replicate buffer_size Byte.x00)).
Proof.
  apply (tx_iteration_serialize_failure (pb := Wire.schema)).
  vm_compute. reflexivity.
Defined.

Lemma set_motor_power_zero_stops_witness :
  F32.eqb (S754_zero true) (F32.of_int 0) = true
  /\ exists hw',
       set_motor_power bench_motor (S754_zero true) hw_reset = Done hw'
       /\ channel_duty hw' (chan_a bench_motor) = 0
       /\ channel_duty hw' (chan_b bench_motor) = 0
       /\ channel_output hw' (chan_a bench_motor) = 0
       /\ channel_output hw' (chan_b bench_motor) = 0
       /\ edge_action hw' (encoder_channel (encoder bench_motor))
          = Some (PCNT_CHANNEL_EDGE_ACTION_HOLD, PCNT_CHANNEL_EDGE_ACTION_HOLD).
Proof.
  split; [reflexivity|].
  apply (set_motor_power_zero_stops bench_motor (S754_zero true) hw_reset).
  reflexivity.
Defined.

(** At power 0.5 the edge action is set to decrease, not to increase. *)
Lemma positive_power_sets_decrease :
  F32.ltb (F32.of_int 0) half = true
  /\ exists hw',
       set_motor_power bench_motor half hw_reset = Done hw'
       /\ edge_action hw' (encoder_channel (encoder bench_motor))
          = Some (PCNT_CHANNEL_EDGE_ACTION_DECREASE, PCNT_CHANNEL_EDGE_ACTION_DECREASE)
       /\ edge_action hw' (encoder_channel (encoder bench_motor))
          <> Some (PCNT_CHANNEL_EDGE_ACTION_INCREASE, PCNT_CHANNEL_EDGE_ACTION_INCREASE).
Proof.
  split; [reflexivity|]. eexists. split.
  - apply (set_motor_power_forward bench_motor 8388608 (-24) hw_reset);
      [reflexivity | vm_compute; reflexivity].
  - rewrite driven_edge. split; [reflexivity | discriminate].
Qed.

Lemma set_motor_power_direction_witness :
  (chan_a bench_motor <> chan_b bench_motor
   /\ F32.valid half = true
   /\ F32.is_finite half = true
   /\ pwm_steps half < 2 ^ 32)
  /\ (exists hw',
        set_motor_power bench_motor half hw_reset = Done hw'
        /\ edge_action hw' (encoder_channel (encoder bench_motor))
           = Some (PCNT_CHANNEL_EDGE_ACTION_DECREASE, PCNT_CHANNEL_EDGE_ACTION_DECREASE)
        /\ channel_duty hw' (chan_b bench_motor) = 512
        /\ channel_output hw' (chan_b bench_motor) = 512
        /\ channel_duty hw' (chan_a bench_motor) = 0
        /\ channel_output hw' (chan_a bench_motor) = 0)
  /\ (exists hw',
        set_motor_power bench_motor (F32.opp half) hw_reset = Done hw'
        /\ edge_action hw' (encoder_channel (encoder bench_motor))
           = Some (PCNT_CHANNEL_EDGE_ACTION_INCREASE, PCNT_CHANNEL_EDGE_ACTION_INCREASE)
        /\ channel_duty hw' (chan_a bench_motor) = 512
        /\ channel_output hw' (chan_a bench_motor) = 512
        /\ channel_duty hw' (chan_b bench_motor) = 0
        /\ channel_output hw' (chan_b bench_motor) = 0).
Proof.
  assert (Hne : chan_a bench_motor <> chan_b bench_motor) by (intros H; discriminate H).
  split;
    [split; [exact Hne | split; [reflexivity | split; [reflexivity | vm_compute; reflexivity]]]|].
  split.
  - destruct (set_motor_power_direction bench_motor half hw_reset Hne
                eq_refl eq_refl eq_refl) as (hw' & Hrun & Hpos & _).
    exists hw'. split; [exact Hrun | exact (Hpos eq_refl)].
  - destruct (set_motor_power_direction bench_motor (F32.opp half) hw_reset Hne
                eq_refl eq_refl eq_refl) as (hw' & Hrun & _ & Hneg).
    exists hw'. split; [exact Hrun | exact (Hneg eq_refl)].
Defined.

(** At power 2.0 the duty written is 2048, twice the full scale. *)
Lemma power_two_exceeds_full_scale :
  F32.leb (F32.of_int 2) (F32.of_int 1) = false
  /\ exists hw',
       set_motor_power bench_motor (F32.of_int 2) hw_reset = Done hw'
       /\ channel_duty hw' (chan_b bench_motor) = 2048
       /\ channel_output hw' (chan_b bench_motor) = 2048
       /\ ~ (channel_output hw' (chan_b bench_motor) <= 1024).
Proof.
  split; [reflexivity|]. eexists. split.
  - apply (set_motor_power_forward bench_motor 8388608 (-22) hw_reset);
      [reflexivity | vm_compute; reflexivity].
  - destruct (driven_chan_b bench_motor
                (pwm_steps (S754_finite false 8388608 (-22))) 0
                PCNT_CHANNEL_EDGE_ACTION_DECREASE hw_reset) as [-> ->].
    + left. intros H. discriminate H.
    + repeat split. vm_compute. intros H. apply H. reflexivity.
Qed.

Lemma set_motor_power_unit_range_witness :
  (F32.valid (F32.of_int 1) = true
   /\ F32.leb (F32.of_int (-1)) (F32.of_int 1) = true
   /\ F32.leb (F32.of_int 1) (F32.of_int 1) = true)
  /\ exists hw',
       set_motor_power bench_motor (F32.of_int 1) hw_reset = Done hw'
       /\ 0 <= channel_duty hw' (chan_a bench_motor) <= 1024
       /\ 0 <= channel_duty hw' (chan_b bench_motor) <= 1024
       /\ 0 <= channel_output hw' (chan_a bench_motor) <= 1024
       /\ 0 <= channel_output hw' (chan_b bench_motor) <= 1024.
Proof.
  split; [repeat split|].
  apply (set_motor_power_unit_range bench_motor (F32.of_int 1) hw_reset);
    reflexivity.
Defined.

Lemma set_motor_power_one_channel_idle_witness :
  chan_a bench_motor <> chan_b bench_motor
  /\ match set_motor_power bench_motor half hw_reset with
     | Done hw' =>
         (channel_duty hw' (chan_a bench_motor) = 0
          /\ channel_output hw' (chan_a bench_motor) = 0)
         \/ (channel_duty hw' (chan_b bench_motor) = 0
             /\ channel_output hw' (chan_b bench_motor) = 0)
     | Aborted _ => False
     | Undefined => F32.to_uint32 (F32.mul (SFabs half) pwm_full_scale) = None
     end.
Proof.
  assert (Hne : chan_a bench_motor <> chan_b bench_motor) by (intros H; discriminate H).
  split; [exact Hne|].
  apply (set_motor_power_one_channel_idle bench_motor half hw_reset Hne).
Defined.

Lemma encoder_deltas_telescope_witness :
  pid_output_bounded (pid := sign_pid)
  /\ exists deltas motor' hw',
       control_ticks [5; 12; 12; 7] bench_motor hw_reset = Done (deltas, motor', hw')
       /\ control_reports [5; 12; 12; 7] bench_motor hw_reset
          = Done ([S754_finite false 11244198 (-30);
                   S754_finite false 15741877 (-30);
                   S754_zero false;
                   S754_finite true 11244198 (-30)],
                  motor', hw')
       /\ deltas = [5; 7; 0; -5]
       /\ count (encoder motor') = 7
       /\ total deltas = 7.
Proof.
  split; [exact sign_pid_bounded|].
  destruct (encoder_deltas_telescope sign_pid_bounded [5; 12; 12; 7]
              bench_motor hw_reset)
    as (deltas & motor' & hw' & Hrun & Hreports & Hdeltas & Hcount & _ & Hexact).
  exists deltas, motor', hw'. split; [exact Hrun|].
  split; [rewrite Hreports, Hdeltas; reflexivity|].
  split; [exact Hdeltas|]. split; [exact Hcount|].
  apply Hexact. repeat constructor; vm_compute; intros H; discriminate H.
Defined.

(* ===================================================================== *)
(** * More facts on floating-point arithmetic *)
(* ===================================================================== *)

Lemma digits2_pos_lower (m : positive) : 2 ^ (Zpos (digits2_pos m) - 1) <= Zpos m.
Proof.
  induction m as [m IH | m IH |]; simpl digits2_pos.
  - rewrite Pos2Z.inj_succ.
    replace (Z.succ (Zpos (digits2_pos m)) - 1)
      with (Z.succ (Zpos (digits2_pos m) - 1)) by lia.
    rewrite Z.pow_succ_r by lia. lia.
  - rewrite Pos2Z.inj_succ.
    replace (Z.succ (Zpos (digits2_pos m)) - 1)
      with (Z.succ (Zpos (digits2_pos m) - 1)) by lia.
    rewrite Z.pow_succ_r by lia. lia.
  - reflexivity.
Qed.

Lemma shiftl_le_mono (a b k : Z) :
  0 <= a <= b -> Z.shiftl a k <= Z.shiftl b k.
Proof.
  intros Hab. destruct (Z_le_gt_dec 0 k) as [Hk | Hk].
  - rewrite !Z.shiftl_mul_pow2 by lia.
    apply Z.mul_le_mono_nonneg_r; [apply Z.pow_nonneg|]; lia.
  - rewrite !Z.shiftl_div_pow2 by lia.
    apply Z.div_le_mono; [apply Z.pow_pos_nonneg|]; lia.
Qed.

(** The order of two positive binary32 numbers, read on their
    representations. *)
Lemma leb_finite_inv (m1 m2 : positive) (e1 e2 : Z) :
  F32.leb (S754_finite false m1 e1) (S754_finite false m2 e2) = true ->
  e1 < e2 \/ (e1 = e2 /\ Zpos m1 <= Zpos m2).
Proof.
  unfold F32.leb, SFleb. cbn [SFcompare].
  destruct (Z.compare_spec e1 e2) as [Heq|Hlt|Hgt]; intros Hle.
  - right. split; [exact Heq|]. apply compare_cont_le.
    intros Hc. rewrite Hc in Hle. discriminate Hle.
  - left. exact Hlt.
  - discriminate Hle.
Qed.

(** A larger positive binary32 number has no fewer PWM steps. *)
Lemma scaled_magnitude_mono (m1 m2 : positive) (e1 e2 : Z) :
  bounded 24 128 m1 e1 = true ->
  bounded 24 128 m2 e2 = true ->
  e1 < e2 \/ (e1 = e2 /\ Zpos m1 <= Zpos m2) ->
  Z.shiftl (Zpos m1) (e1 + 10) <= Z.shiftl (Zpos m2) (e2 + 10).
Proof.
  intros Hb1 Hb2 Hle.
  apply bounded_canonical in Hb1 as [Hcan1 _].
  apply bounded_canonical in Hb2 as [Hcan2 _].
  destruct Hle as [Hlt | [-> Hm]].
  - assert (Hd1 : Zpos (digits2_pos m1) <= 24) by lia.
    assert (Hd2 : Zpos (digits2_pos m2) = 24) by lia.
    pose proof (digits2_pos_bound m1) as Hup.
    pose proof (digits2_pos_lower m2) as Hlow.
    rewrite Hd2 in Hlow. change (2 ^ (24 - 1)) with 8388608 in Hlow.
    assert (Hm1 : Zpos m1 < 2 ^ 24).
    { eapply Z.lt_le_trans; [exact Hup|]. apply Z.pow_le_mono_r; lia. }
    change (2 ^ 24) with 16777216 in Hm1.
    assert (Hpow : 2 ^ 1 <= 2 ^ (e2 - e1)) by (apply Z.pow_le_mono_r; lia).
    change (2 ^ 1) with 2 in Hpow.
    replace (e2 + 10) with ((e2 - e1) + (e1 + 10)) by lia.
    rewrite <- (Z.shiftl_shiftl (Zpos m2) (e2 - e1) (e1 + 10)) by lia.
    apply shiftl_le_mono. rewrite Z.shiftl_mul_pow2 by lia. nia.
  - apply shiftl_le_mono. lia.
Qed.

(** ** Signs *)

Lemma shr_1_nonneg (mrs : shr_record) :
  0 <= shr_m mrs -> 0 <= shr_m (shr_1 mrs).
Proof.
  destruct mrs as [m r s]. destruct m as [|p|p]; cbn; intros Hm; try lia.
  destruct p; cbn; lia.
Qed.

Lemma iter_shr_1_nonneg (k : nat) (mrs : shr_record) :
  0 <= shr_m mrs -> 0 <= shr_m (Nat.iter k shr_1 mrs).
Proof.
  induction k as [|k IH]; intros Hm; [exact Hm|].
  cbn [Nat.iter]. apply shr_1_nonneg, IH, Hm.
Qed.

Lemma shr_nonneg (mrs : shr_record) (e n : Z) :
  0 <= shr_m mrs -> 0 <= shr_m (shr mrs e n).1.
Proof.
  intros Hm. destruct n as [|p|p]; cbn [shr fst]; try exact Hm.
  rewrite iter_pos_nat. apply iter_shr_1_nonneg, Hm.
Qed.

Lemma shr_record_of_loc_m (m : Z) (l : location) :
  shr_m (shr_record_of_loc m l) = m.
Proof. destruct l as [|[]]; reflexivity. Qed.

Lemma shr_fexp_nonneg (prec emax m e : Z) (l : location) :
  0 <= m -> 0 <= shr_m (shr_fexp prec emax m e l).1.
Proof.
  intros Hm. unfold shr_fexp. apply shr_nonneg.
  rewrite shr_record_of_loc_m. exact Hm.
Qed.

Lemma round_nearest_even_nonneg (m : Z) (l : location) :
  0 <= m -> 0 <= round_nearest_even m l.
Proof.
  intros Hm. destruct l as [|[]]; cbn [round_nearest_even]; try lia.
  destruct (Z.even m); lia.
Qed.

(** Rounding a non-negative mantissa keeps the sign it is given, and
    yields no NaN. *)
Lemma binary_round_aux_sign (prec emax : Z) (sx : bool) (mx ex : Z) (lx : location) :
  0 <= mx -> float_sign (binary_round_aux prec emax sx mx ex lx) = Some sx.
Proof.
  intros Hm. unfold binary_round_aux.
  pose proof (shr_fexp_nonneg prec emax mx ex lx Hm) as H1.
  destruct (shr_fexp prec emax mx ex lx) as [mrs' e']. cbn [fst] in H1.
  pose proof (shr_fexp_nonneg prec emax
                (round_nearest_even (shr_m mrs') (loc_of_shr_record mrs')) e'
                loc_Exact (round_nearest_even_nonneg _ _ H1)) as H2.
  destruct (shr_fexp prec emax _ e' loc_Exact) as [mrs'' e'']. cbn [fst] in H2.
  destruct (shr_m mrs'') as [|p|p]; [reflexivity | | lia].
  destruct (e'' <=? emax - prec); reflexivity.
Qed.

Lemma binary_round_sign (prec emax : Z) (s : bool) (m : positive) (e : Z) :
  float_sign (binary_round prec emax s m e) = Some s.
Proof.
  unfold binary_round. destruct (shl_align m e _) as [mz ez].
  apply binary_round_aux_sign. lia.
Qed.

Lemma binary_normalize_sign (prec emax n : Z) :
  float_sign (binary_normalize prec emax n 0 false) = Some (n <? 0).
Proof.
  destruct n as [|p|p]; cbn [binary_normalize]; [reflexivity | |];
    apply binary_round_sign.
Qed.

Lemma SFmul_sign (prec emax : Z) (x : spec_float) (s t : bool)
    (my : positive) (ey : Z) :
  float_sign x = Some s ->
  float_sign (SFmul prec emax x (S754_finite t my ey)) = Some (xorb s t).
Proof.
  destruct x as [sx|sx| |sx mx ex]; cbn [float_sign SFmul]; intros [= <-];
    try reflexivity.
  apply binary_round_aux_sign. lia.
Qed.

Lemma SFdiv_sign (prec emax : Z) (x : spec_float) (s t : bool)
    (my : positive) (ey : Z) :
  float_sign x = Some s ->
  float_sign (SFdiv prec emax x (S754_finite t my ey)) = Some (xorb s t).
Proof.
  destruct x as [sx|sx| |sx mx ex]; cbn [float_sign SFdiv]; intros [= <-];
    try reflexivity.
  unfold SFdiv_core_binary.
  match goal with
  | |- context [Z.div_eucl ?a ?b] =>
      assert (Hq : 0 <= a / b);
      [ apply Z.div_pos; [|lia] | unfold Z.div in Hq; destruct (Z.div_eucl a b) as [q r] ]
  end.
  - destruct (_ - _ - _) as [|p|p]; try lia. apply Z.shiftl_nonneg. lia.
  - cbn [fst] in Hq. apply binary_round_aux_sign. exact Hq.
Qed.

Lemma of_f32_sign (x : spec_float) : float_sign (F64.of_f32 x) = float_sign x.
Proof. destruct x; cbn [F64.of_f32 float_sign]; try reflexivity. apply binary_round_sign. Qed.

Lemma to_f32_sign (x : spec_float) : float_sign (F64.to_f32 x) = float_sign x.
Proof. destruct x; cbn [F64.to_f32 float_sign]; try reflexivity. apply binary_round_sign. Qed.

(* ===================================================================== *)
(** * More on the motor actuator *)
(* ===================================================================== *)

(** The duties and the edge action that can be read back from a [driven]
    state. *)
Ltac read_driven motor y x act hw Hne :=
  pose proof (driven_chan_a motor y x act hw) as [? ?];
  pose proof (driven_chan_b motor y x act hw Hne) as [? ?];
  pose proof (driven_edge motor y x act hw).

Section ActuatorFacts.
Context {pid : PidCtrl}.
Implicit Types (motor : motor_handle_t) (hw : hw_state) (power : spec_float).

(** Whether a power can be applied, and which duties and edge action it
    leads to, does not depend on the state of the peripherals. *)
Lemma set_motor_power_shape motor power :
  (forall hw, set_motor_power motor power hw = Undefined)
  \/ (exists duty_b duty_a act,
        (duty_b = 0 \/ duty_a = 0)
        /\ forall hw, set_motor_power motor power hw
                      = Done (driven motor duty_b duty_a act hw)).
Proof.
  destruct power as [s|s| |s m e].
  - right. exists 0, 0, PCNT_CHANNEL_EDGE_ACTION_HOLD.
    split; [auto|]. intros hw. apply set_motor_power_zero.
  - left. intros hw. destruct s; reflexivity.
  - left. intros hw. reflexivity.
  - destruct (F32.to_uint32 (F32.mul (S754_finite false m e) pwm_full_scale))
      as [duty|] eqn:Hcast.
    + right. destruct s.
      * exists 0, duty, PCNT_CHANNEL_EDGE_ACTION_INCREASE. split; [auto|].
        intros hw. rewrite set_motor_power_neg, Hcast. reflexivity.
      * exists duty, 0, PCNT_CHANNEL_EDGE_ACTION_DECREASE. split; [auto|].
        intros hw. rewrite set_motor_power_pos, Hcast. reflexivity.
    + left. intros hw. destruct s.
      * rewrite set_motor_power_neg, Hcast. reflexivity.
      * rewrite set_motor_power_pos, Hcast. reflexivity.
Qed.

Lemma set_motor_power_done_inv motor power hw hw' :
  set_motor_power motor power hw = Done hw' ->
  exists duty_b duty_a act, hw' = driven motor duty_b duty_a act hw.
Proof.
  intros Hrun.
  destruct (set_motor_power_shape motor power) as [Hundef | (y & x & act & _ & Hdone)].
  - rewrite Hundef in Hrun. discriminate Hrun.
  - rewrite Hdone in Hrun. injection Hrun as <-. eauto.
Qed.

Lemma driven_other_channel motor y x act hw (channel : Z) :
  channel <> chan_a motor -> channel <> chan_b motor ->
  channel_duty (driven motor y x act hw) channel = channel_duty hw channel
  /\ channel_output (driven motor y x act hw) channel = channel_output hw channel.
Proof.
  intros Ha Hb. unfold driven, channel_duty, channel_output, duty_of; cbn.
  rewrite !lookup_insert_ne by done. auto.
Qed.

Lemma driven_other_edge motor y x act hw (channel : Z) :
  channel <> encoder_channel (encoder motor) ->
  edge_action (driven motor y x act hw) channel = edge_action hw channel.
Proof.
  intros Hc. unfold driven, edge_action; cbn. rewrite lookup_insert_ne by done.
  reflexivity.
Qed.

(** X1. [set_motor_power] touches nothing but the motor's own two PWM
    channels and its own encoder channel: when it completes, the pulse
    counts are as before, every other channel keeps its duty register and
    its output, and every other encoder channel keeps its edge action. *)
Theorem set_motor_power_frame motor power hw hw' :
  set_motor_power motor power hw = Done hw' ->
  pcnt_count hw' = pcnt_count hw
  /\ (forall channel,
        channel <> chan_a motor -> channel <> chan_b motor ->
        channel_duty hw' channel = channel_duty hw channel
        /\ channel_output hw' channel = channel_output hw channel)
  /\ (forall channel,
        channel <> encoder_channel (encoder motor) ->
        edge_action hw' channel = edge_action hw channel).
Proof.
  intros Hrun.
  apply set_motor_power_done_inv in Hrun as (y & x & act & ->).
  split; [reflexivity|]. split.
  - intros channel Ha Hb. apply driven_other_channel; assumption.
  - intros channel Hc. apply driven_other_edge; assumption.
Qed.

Lemma insert2_insert2 {V : Type} (a b : Z) (x1 y1 x2 y2 : V) (m : gmap Z V) :
  <[a := x2]> (<[b := y2]> (<[a := x1]> (<[b := y1]> m)))
  = <[a := x2]> (<[b := y2]> m).
Proof.
  apply map_eq. intros k. rewrite !lookup_insert.
  repeat case_decide; reflexivity.
Qed.

Lemma driven_eq motor y x act hw :
  driven motor y x act hw
  = {| ledc_duty := <[chan_a motor := x]> (<[chan_b motor := y]> (ledc_duty hw));
       ledc_output :=
         <[chan_b motor :=
             duty_of (<[chan_a motor := x]> (<[chan_b motor := y]> (ledc_duty hw)))
               (chan_b motor)]>
           (<[chan_a motor :=
                duty_of (<[chan_a motor := x]> (<[chan_b motor := y]> (ledc_duty hw)))
                  (chan_a motor)]>
              (ledc_output hw));
       pcnt_edge := <[encoder_channel (encoder motor) := (act, act)]> (pcnt_edge hw);
       pcnt_count := pcnt_count hw |}.
Proof. reflexivity. Qed.

(** A second command replaces what the first one wrote. *)
Lemma driven_driven motor y1 x1 act1 y2 x2 act2 hw :
  driven motor y2 x2 act2 (driven motor y1 x1 act1 hw)
  = driven motor y2 x2 act2 hw.
Proof.
  rewrite (driven_eq motor y2 x2 act2 (driven motor y1 x1 act1 hw)).
  rewrite (driven_eq motor y1 x1 act1 hw).
  rewrite (driven_eq motor y2 x2 act2 hw).
  cbn [ledc_duty ledc_output pcnt_edge pcnt_count].
  rewrite insert_insert_eq, (insert2_insert2 (chan_a motor) (chan_b motor)).
  rewrite (insert2_insert2 (chan_b motor) (chan_a motor)).
  reflexivity.
Qed.

(** X2. The actuator keeps no history: a power command issued after an
    earlier one that completed has the same outcome, state included, as if
    the earlier one had never been issued. *)
Theorem set_motor_power_last_wins motor (power1 power2 : spec_float) hw hw1 :
  set_motor_power motor power1 hw = Done hw1 ->
  set_motor_power motor power2 hw1 = set_motor_power motor power2 hw.
Proof.
  intros Hrun.
  apply set_motor_power_done_inv in Hrun as (y1 & x1 & act1 & ->).
  destruct (set_motor_power_shape motor power2)
    as [Hundef | (y2 & x2 & act2 & _ & Hdone)].
  - rewrite !Hundef. reflexivity.
  - rewrite !Hdone, driven_driven. reflexivity.
Qed.

(** X3. For a motor on two distinct channels, negating the power swaps
    the two channels: wherever a power command completes, the negated
    command completes as well, and its duty and output on [chan_a] are
    those of the original on [chan_b], and the reverse. *)
Theorem set_motor_power_opposite motor power hw hw1 :
  chan_a motor <> chan_b motor ->
  set_motor_power motor power hw = Done hw1 ->
  exists hw2,
    set_motor_power motor (F32.opp power) hw = Done hw2
    /\ channel_duty hw2 (chan_a motor) = channel_duty hw1 (chan_b motor)
    /\ channel_duty hw2 (chan_b motor) = channel_duty hw1 (chan_a motor)
    /\ channel_output hw2 (chan_a motor) = channel_output hw1 (chan_b motor)
    /\ channel_output hw2 (chan_b motor) = channel_output hw1 (chan_a motor).
Proof.
  intros Hne Hrun. destruct power as [s|s| |s m e].
  - rewrite set_motor_power_zero in Hrun. injection Hrun as <-.
    eexists. split; [apply set_motor_power_zero|].
    read_driven motor 0 0 PCNT_CHANNEL_EDGE_ACTION_HOLD hw
      (or_intror (chan_a motor <> chan_b motor) (eq_refl 0)).
    repeat split; congruence.
  - destruct s; discriminate Hrun.
  - discriminate Hrun.
  - destruct (F32.to_uint32 (F32.mul (S754_finite false m e) pwm_full_scale))
      as [duty|] eqn:Hcast.
    + destruct s; cbn [F32.opp SFopp negb].
      * rewrite set_motor_power_neg, Hcast in Hrun. injection Hrun as <-.
        eexists. split; [rewrite set_motor_power_pos, Hcast; reflexivity|].
        read_driven motor 0 duty PCNT_CHANNEL_EDGE_ACTION_INCREASE hw
          (or_introl (duty = 0) Hne).
        read_driven motor duty 0 PCNT_CHANNEL_EDGE_ACTION_DECREASE hw
          (or_introl (0 = duty) Hne).
        repeat split; congruence.
      * rewrite set_motor_power_pos, Hcast in Hrun. injection Hrun as <-.
        eexists. split; [rewrite set_motor_power_neg, Hcast; reflexivity|].
        read_driven motor 0 duty PCNT_CHANNEL_EDGE_ACTION_INCREASE hw
          (or_introl (duty = 0) Hne).
        read_driven motor duty 0 PCNT_CHANNEL_EDGE_ACTION_DECREASE hw
          (or_introl (0 = duty) Hne).
        repeat split; congruence.
    + destruct s.
      * rewrite set_motor_power_neg, Hcast in Hrun. discriminate Hrun.
      * rewrite set_motor_power_pos, Hcast in Hrun. discriminate Hrun.
Qed.

End ActuatorFacts.

Section ActuatorOrder.
Context {pid : PidCtrl}.
Implicit Types (motor : motor_handle_t) (hw : hw_state) (power : spec_float).

(** X4. For a motor on two distinct channels the forward duty is monotone
    in the power: of two positive powers whose scaled magnitude fits the
    duty type, the larger one yields a duty on [chan_b], in the register
    and at the output, that is at least that of the smaller one. *)
Theorem set_motor_power_monotone motor (power1 power2 : spec_float) hw :
  chan_a motor <> chan_b motor ->
  F32.valid power1 = true ->
  F32.valid power2 = true ->
  F32.ltb (F32.of_int 0) power1 = true ->
  F32.leb power1 power2 = true ->
  F32.is_finite power2 = true ->
  pwm_steps power2 < 2 ^ 32 ->
  exists hw1 hw2,
    set_motor_power motor power1 hw = Done hw1
    /\ set_motor_power motor power2 hw = Done hw2
    /\ channel_duty hw1 (chan_b motor) <= channel_duty hw2 (chan_b motor)
    /\ channel_output hw1 (chan_b motor) <= channel_output hw2 (chan_b motor).
Proof.
  intros Hne Hv1 Hv2 Hpos Hle Hfin Hlt.
  destruct power2 as [s2|s2| |s2 m2 e2]; try discriminate Hfin;
    (destruct power1 as [s1|s1| |s1 m1 e1]; try discriminate Hpos;
     destruct s1; try discriminate Hpos;
     destruct s2; try discriminate Hle).
  apply leb_finite_inv in Hle.
  pose proof (scaled_magnitude_mono m1 m2 e1 e2 Hv1 Hv2 Hle) as Hmono.
  cbn [pwm_steps] in Hlt. change PWM_TIMER_RESOLUTION with 10 in Hlt.
  assert (Hlt1 : pwm_steps (S754_finite false m1 e1) < 2 ^ 32).
  { cbn [pwm_steps]. change PWM_TIMER_RESOLUTION with 10. lia. }
  eexists _, _.
  split; [apply (set_motor_power_forward motor m1 e1 hw Hv1 Hlt1)|].
  split; [apply (set_motor_power_forward motor m2 e2 hw Hv2 Hlt)|].
  read_driven motor (pwm_steps (S754_finite false m1 e1)) 0
    PCNT_CHANNEL_EDGE_ACTION_DECREASE hw
    (or_introl (0 = pwm_steps (S754_finite false m1 e1)) Hne).
  read_driven motor (pwm_steps (S754_finite false m2 e2)) 0
    PCNT_CHANNEL_EDGE_ACTION_DECREASE hw
    (or_introl (0 = pwm_steps (S754_finite false m2 e2)) Hne).
  cbn [pwm_steps] in *. change PWM_TIMER_RESOLUTION with 10 in *.
  split; congruence.
Qed.

End ActuatorOrder.

(* ===================================================================== *)
(** * More on the velocity regulator *)
(* ===================================================================== *)

(** The constants of the speed computation are positive numbers. *)
Lemma two_pi_positive : exists m e, F64.mul (F64.of_int 2) M_PI = S754_finite false m e.
Proof. eexists _, _. vm_compute. reflexivity. Qed.

Lemma period_seconds_positive :
  exists m e, F64.div PID_LOOP_PERIOD_MS (F64.of_int 1000) = S754_finite false m e.
Proof. eexists _, _. vm_compute. reflexivity. Qed.

Lemma pulses_per_rotation_positive :
  exists m e, PULSES_PER_ROTATION = S754_finite false m e.
Proof. eexists _, _. vm_compute. reflexivity. Qed.

Lemma speed_sign (delta : Z) :
  float_sign
    (F64.to_f32
       (F64.mul (PULSES_TO_RAD delta)
                (F64.div PID_LOOP_PERIOD_MS (F64.of_int 1000))))
  = Some (delta <? 0).
Proof.
  destruct two_pi_positive as (m1 & e1 & H1).
  destruct period_seconds_positive as (m2 & e2 & H2).
  destruct pulses_per_rotation_positive as (m3 & e3 & H3).
  unfold PULSES_TO_RAD. rewrite H1, H2, H3, to_f32_sign.
  assert (Hcount : float_sign (F64.of_f32 (F32.of_int delta)) = Some (delta <? 0)).
  { rewrite of_f32_sign. apply binary_normalize_sign. }
  pose proof (SFdiv_sign F64.prec F64.emax _ _ false m3 e3 Hcount) as Hturns.
  rewrite xorb_false_r in Hturns.
  pose proof (SFmul_sign F64.prec F64.emax _ _ false m1 e1 Hturns) as Hrad.
  rewrite xorb_false_r in Hrad.
  pose proof (SFmul_sign F64.prec F64.emax _ _ false m2 e2 Hrad) as Hspeed.
  rewrite xorb_false_r in Hspeed. exact Hspeed.
Qed.

Lemma speed_zero :
  F64.to_f32
    (F64.mul (PULSES_TO_RAD 0)
             (F64.div PID_LOOP_PERIOD_MS (F64.of_int 1000)))
  = S754_zero false.
Proof. vm_compute. reflexivity. Qed.

Section RegulatorFacts.
Context {pid : PidCtrl}.
Implicit Types (motor : motor_handle_t) (hw : hw_state).

(** What a completed tick has done. *)
Lemma pid_callback_inv motor hw motor' hw' :
  pid_callback motor hw = Done (motor', hw') ->
  pid_compute (pid_controller motor) (tick_error motor hw)
  = (ESP_OK, pid_controller motor', cmd_power motor')
  /\ set_motor_power motor (cmd_power motor') hw = Done hw'
  /\ reported_speed motor' = tick_speed motor hw
  /\ encoder motor'
     = set_count (pcnt_unit_get_count (encoder_unit (encoder motor)) hw)
         (encoder motor)
  /\ cmd_velocity motor' = cmd_velocity motor
  /\ chan_a motor' = chan_a motor
  /\ chan_b motor' = chan_b motor
  /\ enable_pin motor' = enable_pin motor
  /\ pid_timer motor' = pid_timer motor.
Proof.
  unfold pid_callback, tick_error, tick_speed, tick_pulses_elapsed.
  destruct (pid_compute _ _) as [[err block] power].
  unfold ESP_ERROR_CHECK. destruct (Z.eqb_spec err ESP_OK) as [-> | Herr];
    cbn [mbind outcome_bind]; [|discriminate].
  match goal with
  | |- context [set_motor_power ?m power hw] =>
      change (set_motor_power m power hw) with (set_motor_power motor power hw)
  end.
  destruct (set_motor_power motor power hw) as [hw1| |] eqn:Hset;
    cbn [mbind outcome_bind mret outcome_ret]; try discriminate.
  intros [= <- <-]. cbn. repeat split. exact Hset.
Qed.

(** X5. The sign of the speed that a completed control tick reports is that of
    the pulse delta it read: the sign bit is set exactly when the delta is
    negative, a speed below zero needs a negative delta and a speed above
    zero a positive one. *)
Theorem reported_speed_sign motor hw motor' hw' :
  pid_callback motor hw = Done (motor', hw') ->
  float_sign (reported_speed motor') = Some (tick_pulses_elapsed motor hw <? 0)
  /\ (F32.ltb (reported_speed motor') (F32.of_int 0) = true ->
      tick_pulses_elapsed motor hw < 0)
  /\ (F32.ltb (F32.of_int 0) (reported_speed motor') = true ->
      0 < tick_pulses_elapsed motor hw).
Proof.
  intros Hrun. apply pid_callback_inv in Hrun as (_ & _ & Hspeed & _).
  rewrite Hspeed. unfold tick_speed.
  pose proof (speed_sign (tick_pulses_elapsed motor hw)) as Hsign.
  split; [exact Hsign|]. split; intros Hcmp.
  - destruct (Z.ltb_spec (tick_pulses_elapsed motor hw) 0) as [Hlt|Hge];
      [exact Hlt|].
    destruct (F64.to_f32 _) as [s|s| |s m e]; try discriminate Hsign;
      injection Hsign as ->; discriminate Hcmp.
  - destruct (Z.ltb_spec (tick_pulses_elapsed motor hw) 0) as [Hlt|Hge].
    + destruct (F64.to_f32 _) as [s|s| |s m e]; try discriminate Hsign;
        injection Hsign as ->; discriminate Hcmp.
    + destruct (Z.eq_dec (tick_pulses_elapsed motor hw) 0) as [Hz|Hnz]; [|lia].
      rewrite Hz, speed_zero in Hcmp. discriminate Hcmp.
Qed.

End RegulatorFacts.

Section RegulatorRuns.
Context {pid : PidCtrl}.
Implicit Types (motor : motor_handle_t) (hw : hw_state) (counts : list Z).

Lemma control_ticks_cons_inv (c : Z) counts motor hw
    (deltas : list Z) motor' hw' :
  control_ticks (c :: counts) motor hw = Done (deltas, motor', hw') ->
  exists motor1 hw1 rest,
    pid_callback motor (pcnt_count_becomes (encoder_unit (encoder motor)) c hw)
    = Done (motor1, hw1)
    /\ control_ticks counts motor1 hw1 = Done (rest, motor', hw')
    /\ deltas
       = tick_pulses_elapsed motor
           (pcnt_count_becomes (encoder_unit (encoder motor)) c hw) :: rest.
Proof.
  cbn [control_ticks].
  destruct (pid_callback motor _) as [[motor1 hw1]| |] eqn:Htick;
    cbn [mbind outcome_bind]; try discriminate.
  destruct (control_ticks counts motor1 hw1) as [[[rest motor2] hw2]| |] eqn:Hrest;
    cbn [mbind outcome_bind mret outcome_ret]; try discriminate.
  intros [= <- <- <-]. exists motor1, hw1, rest. auto.
Qed.

Lemma control_ticks_frame counts motor hw (deltas : list Z) motor' hw' :
  control_ticks counts motor hw = Done (deltas, motor', hw') ->
  cmd_velocity motor' = cmd_velocity motor
  /\ chan_a motor' = chan_a motor
  /\ chan_b motor' = chan_b motor
  /\ enable_pin motor' = enable_pin motor
  /\ pid_timer motor' = pid_timer motor
  /\ encoder_unit (encoder motor') = encoder_unit (encoder motor)
  /\ encoder_channel (encoder motor') = encoder_channel (encoder motor).
Proof.
  revert motor hw deltas. induction counts as [|c counts IH]; intros motor hw deltas.
  - cbn. intros [= <- <- <-]. repeat split.
  - intros Hrun.
    apply control_ticks_cons_inv in Hrun as (motor1 & hw1 & rest & Htick & Hrest & _).
    apply pid_callback_inv in Htick
      as (_ & _ & _ & Henc & Hvel & Ha & Hb & Hen & Htimer).
    apply IH in Hrest as (Hvel' & Ha' & Hb' & Hen' & Htimer' & Hunit' & Hchan').
    rewrite Henc in Hunit', Hchan'. cbn in Hunit', Hchan'.
    repeat split; congruence.
Qed.

(** X6. Control ticks never change what they are configured with: after
    any run that completes, the commanded velocity is still the one last
    set with [set_motor_velocity], and the channels, the enable pin, the
    timer and the encoder handles of the motor are as before. *)
Theorem control_ticks_keep_setpoint counts motor (velocity : spec_float) hw
    (deltas : list Z) motor' hw' :
  control_ticks counts (set_motor_velocity motor velocity) hw
  = Done (deltas, motor', hw') ->
  cmd_velocity motor' = velocity
  /\ chan_a motor' = chan_a motor
  /\ chan_b motor' = chan_b motor
  /\ enable_pin motor' = enable_pin motor
  /\ pid_timer motor' = pid_timer motor
  /\ encoder_unit (encoder motor') = encoder_unit (encoder motor)
  /\ encoder_channel (encoder motor') = encoder_channel (encoder motor).
Proof. intros Hrun. apply control_ticks_frame in Hrun. exact Hrun. Qed.

Lemma control_ticks_app (pre post : list Z) motor hw
    (deltas : list Z) motor1 hw1 :
  control_ticks pre motor hw = Done (deltas, motor1, hw1) ->
  control_ticks (pre ++ post) motor hw
  = '(rest, motor2, hw2) ← control_ticks post motor1 hw1;
    mret (deltas ++ rest, motor2, hw2).
Proof.
  revert motor hw deltas. induction pre as [|c pre IH]; intros motor hw deltas.
  - cbn [control_ticks]. intros [= <- <- <-]. cbn [app].
    destruct (control_ticks post motor hw) as [[[rest motor2] hw2]| |]; reflexivity.
  - intros Hrun.
    apply control_ticks_cons_inv in Hrun as (motor0 & hw0 & rest0 & Htick & Hrest & ->).
    cbn [app control_ticks]. rewrite Htick. cbn [mbind outcome_bind].
    rewrite (IH _ _ _ Hrest).
    destruct (control_ticks post motor1 hw1) as [[[rest motor2] hw2]| |]; reflexivity.
Qed.

(** X7. A failing controller step stops the run: if after some completed
    ticks [pid_compute] answers the next tick's error with a status other
    than [ESP_OK], the run aborts with that status, whatever counts would
    have followed. *)
Theorem control_ticks_abort (pre post : list Z) (c : Z) motor hw
    (deltas : list Z) motor1 hw1 (err : esp_err_t)
    (block : pid_ctrl_block) (power : spec_float) :
  control_ticks pre motor hw = Done (deltas, motor1, hw1) ->
  pid_compute (pid_controller motor1)
    (tick_error motor1 (pcnt_count_becomes (encoder_unit (encoder motor1)) c hw1))
  = (err, block, power) ->
  err <> ESP_OK ->
  control_ticks (pre ++ c :: post) motor hw = Aborted err.
Proof.
  intros Hpre Hpid Herr. rewrite (control_ticks_app _ _ _ _ _ _ _ Hpre).
  cbn [control_ticks]. unfold pid_callback.
  unfold tick_error, tick_speed, tick_pulses_elapsed in Hpid. rewrite Hpid.
  unfold ESP_ERROR_CHECK. destruct (Z.eqb_spec err ESP_OK) as [Heq | _];
    [contradiction | reflexivity].
Qed.

Lemma pid_callback_settles motor hw motor' hw' :
  pid_output_bounded ->
  chan_a motor <> chan_b motor ->
  pid_callback motor hw = Done (motor', hw') ->
  actuator_settled motor hw'
  /\ F32.leb (F32.of_int (-1)) (cmd_power motor') = true
  /\ F32.leb (cmd_power motor') (F32.of_int 1) = true.
Proof.
  intros Hpid Hne Hrun.
  apply pid_callback_inv in Hrun as (Hstep & Hset & _).
  destruct (Hpid (pid_controller motor) (tick_error motor hw))
    as (block & power & Hstep' & Hv & Hlo & Hhi).
  rewrite Hstep in Hstep'. injection Hstep' as _ <-.
  split; [|split; assumption].
  destruct (set_motor_power_bounded motor (cmd_power motor') hw Hv Hlo Hhi)
    as (y & x & act & Hrun & Hy & Hx).
  destruct (set_motor_power_shape motor (cmd_power motor'))
    as [Hundef | (y' & x' & act' & Hzero & Hdone)].
  - rewrite Hundef in Hset. discriminate Hset.
  - rewrite Hset in Hrun. injection Hrun as ->.
    rewrite Hdone in Hset.
    apply (f_equal (fun o => match o with Done h => h | _ => hw end)) in Hset.
    cbn beta iota in Hset.
    assert (Hya : x = x' /\ y = y').
    { pose proof (f_equal (fun h => channel_duty h (chan_a motor)) Hset) as Ea.
      pose proof (f_equal (fun h => channel_duty h (chan_b motor)) Hset) as Eb.
      cbn beta in Ea, Eb.
      read_driven motor y x act hw (or_introl (x = y) Hne).
      read_driven motor y' x' act' hw (or_introl (x' = y') Hne).
      split; congruence. }
    destruct Hya as [<- <-].
    read_driven motor y x act hw (or_introl (x = y) Hne).
    unfold actuator_settled.
    destruct Hzero as [-> | ->]; repeat split; try congruence; try lia.
Qed.

(** X8. With a controller that keeps its output within [-1.0, 1.0] and a
    motor on two distinct channels, every run of at least one tick that
    completes leaves the actuator settled: both duties within [0, 1024],
    one of them 0, both latched to the outputs; and the stored power
    command lies within [-1.0, 1.0]. *)
Theorem control_ticks_settled counts motor hw (deltas : list Z) motor' hw' :
  pid_output_bounded ->
  chan_a motor <> chan_b motor ->
  counts <> [] ->
  control_ticks counts motor hw = Done (deltas, motor', hw') ->
  actuator_settled motor hw'
  /\ F32.leb (F32.of_int (-1)) (cmd_power motor') = true
  /\ F32.leb (cmd_power motor') (F32.of_int 1) = true.
Proof.
  intros Hpid. revert motor hw deltas.
  induction counts as [|c counts IH]; intros motor hw deltas Hne Hcounts Hrun;
    [contradiction|].
  apply control_ticks_cons_inv in Hrun as (motor1 & hw1 & rest & Htick & Hrest & _).
  destruct counts as [|c' counts].
  - cbn in Hrest. injection Hrest as _ <- <-.
    apply (pid_callback_settles motor _ motor1 hw1 Hpid Hne Htick).
  - pose proof (pid_callback_inv _ _ _ _ Htick)
      as (_ & _ & _ & _ & _ & Ha & Hb & _).
    assert (Hne1 : chan_a motor1 <> chan_b motor1) by congruence.
    destruct (IH motor1 hw1 rest Hne1 ltac:(discriminate) Hrest) as (Hset & Hlo & Hhi).
    unfold actuator_settled in *. rewrite Ha, Hb in Hset. auto.
Qed.

End RegulatorRuns.

(* ===================================================================== *)
(** * More on the socket tasks *)
(* ===================================================================== *)

Section DispatchFacts.
Context {pb : PbSchema}.
Implicit Types (rx_callbacks : callback_table) (payload : list Byte.byte).

Lemma rx_iteration_twist rx_callbacks payload (callback : nat)
    (stream stream' : pb_istream_t) (status : bool) (msg : TwistCmd) :
  rx_callbacks !! rx_index eTwistCmd = Some (Some callback) ->
  decode_unionmessage_type (pb_istream_from_buffer (take buffer_size payload))
  = (Some TwistCmd_fields, stream) ->
  decode_unionmessage_contents stream TwistCmd_fields TwistCmd_zero
  = (status, msg, stream') ->
  rx_iteration rx_callbacks (RecvDatagram payload)
  = (RxCallback callback msg ::
       (if negb status then [RxLog (LogDecodeFailed (PB_GET_ERROR stream'))] else []),
     RxContinue).
Proof.
  intros Hcb Htype Hbody. unfold rx_iteration. rewrite Htype.
  destruct (decide (Some TwistCmd_fields = Some TwistCmd_fields)); [|contradiction].
  rewrite Hbody, Hcb. reflexivity.
Qed.

(** X9. Registering a second callback for the velocity command replaces
    the first: a datagram announcing a velocity command is then handed to
    the second callback only (followed by the decode-failure log when the
    body does not decode), and the table keeps its size. *)
Theorem register_callback_last_wins rx_callbacks payload
    (first second : nat) (stream stream' : pb_istream_t) (status : bool)
    (msg : TwistCmd) :
  length rx_callbacks = MAX_RX_CALLBACKS ->
  decode_unionmessage_type (pb_istream_from_buffer (take buffer_size payload))
  = (Some TwistCmd_fields, stream) ->
  decode_unionmessage_contents stream TwistCmd_fields TwistCmd_zero
  = (status, msg, stream') ->
  rx_iteration
    (register_callback second eTwistCmd
       (register_callback first eTwistCmd rx_callbacks))
    (RecvDatagram payload)
  = (RxCallback second msg ::
       (if negb status then [RxLog (LogDecodeFailed (PB_GET_ERROR stream'))] else []),
     RxContinue)
  /\ length (register_callback second eTwistCmd
               (register_callback first eTwistCmd rx_callbacks))
     = MAX_RX_CALLBACKS.
Proof.
  intros Hlen Htype Hbody. split.
  - apply (rx_iteration_twist _ _ _ stream stream'); [|assumption|assumption].
    unfold register_callback, callback_table in *. apply list_lookup_insert_eq.
    rewrite length_insert, Hlen. unfold MAX_RX_CALLBACKS, rx_index. lia.
  - unfold register_callback, callback_table in *. rewrite !length_insert.
    exact Hlen.
Qed.

(** X10. With no callback registered, the first datagram that announces a
    velocity command stops the receive task at a call through a null
    pointer: nothing is logged for it and nothing after it is read. *)
Theorem socket_rx_task_null_callback (pre post : list recv_result) payload
    (events : list rx_event) (stream : pb_istream_t) :
  socket_rx_task rx_callbacks_init pre = (events, RxBlocked) ->
  decode_unionmessage_type (pb_istream_from_buffer (take buffer_size payload))
  = (Some TwistCmd_fields, stream) ->
  socket_rx_task rx_callbacks_init (pre ++ RecvDatagram payload :: post)
  = (events, RxCrashed).
Proof.
  intros Hpre Htype. rewrite (socket_rx_task_app _ _ _ _ Hpre).
  cbn [socket_rx_task]. unfold rx_iteration. rewrite Htype.
  destruct (decide (Some TwistCmd_fields = Some TwistCmd_fields)); [|contradiction].
  destruct (decode_unionmessage_contents _ _ _) as [[status msg] stream'].
  cbn. rewrite (right_id_L [] (++)). reflexivity.
Qed.

(** X11. With a callback registered, a sequence of datagrams that each
    decode to a velocity command produces exactly one callback invocation
    per datagram, in arrival order and with the decoded message, nothing
    else, and the task is left waiting in [recvfrom]. *)
Theorem socket_rx_task_in_order rx_callbacks (callback : nat)
    (payloads : list (list Byte.byte)) (msgs : list TwistCmd) :
  rx_callbacks !! rx_index eTwistCmd = Some (Some callback) ->
  Forall2 decodes_to payloads msgs ->
  socket_rx_task rx_callbacks (RecvDatagram <$> payloads)
  = (RxCallback callback <$> msgs, RxBlocked).
Proof.
  intros Hcb Hall. induction Hall as [|payload msg payloads msgs Hdec _ IH].
  - reflexivity.
  - destruct Hdec as (stream & stream' & Htype & Hbody).
    cbn [fmap list_fmap socket_rx_task].
    rewrite (rx_iteration_twist _ _ _ _ _ _ _ Hcb Htype Hbody).
    change (list_fmap _ _ RecvDatagram payloads) with (RecvDatagram <$> payloads).
    rewrite IH. reflexivity.
Qed.

(** X12. Whatever is received, the callback is invoked only for datagrams
    announcing a velocity command: on a sequence without any, no callback
    is invoked, and the task never stops at a null callback, even with an
    empty table. *)
Theorem socket_rx_task_no_twist rx_callbacks (network : list recv_result) :
  Forall not_twist network ->
  filter (fun ev => is_callback ev = true) (socket_rx_task rx_callbacks network).1 = []
  /\ (socket_rx_task rx_callbacks network).2 <> RxCrashed.
Proof.
  intros Hall. induction Hall as [|r network Hr _ IH].
  - split; [reflexivity | discriminate].
  - cbn [socket_rx_task]. destruct r as [errno | payload].
    + cbn. split; [reflexivity | discriminate].
    + cbn [not_twist] in Hr.
      destruct (decode_unionmessage_type
                  (pb_istream_from_buffer (take buffer_size payload)))
        as [type stream] eqn:Htype.
      rewrite (rx_iteration_other_type _ _ _ _ Htype Hr).
      destruct (socket_rx_task rx_callbacks network) as [rest exit].
      cbn in *. exact IH.
Qed.

(** X13. The transmit task hands to [sendto] exactly one datagram per
    queued message, in queue order, each being the bytes that [pb_encode]
    wrote for that message, whatever the buffer held before; and it logs
    exactly once per message whose encoding failed. *)
Theorem socket_tx_task_payloads (queue : list UdpPacket) (tx_buffer : list Byte.byte) :
  tx_payloads (socket_tx_task queue tx_buffer)
  = (fun msg => (pb_encode buffer_size UdpPacket_fields msg).2) <$> queue
  /\ length (filter (fun ev => is_tx_log ev = true) (socket_tx_task queue tx_buffer))
     = length (filter (fun msg => (pb_encode buffer_size UdpPacket_fields msg).1 = false)
                 queue).
Proof.
  revert tx_buffer. induction queue as [|msg queue IH]; intros tx_buffer.
  - split; reflexivity.
  - cbn [socket_tx_task]. unfold tx_iteration.
    destruct (pb_encode buffer_size UdpPacket_fields msg) as [status written] eqn:Henc.
    rewrite buffer_write_take.
    destruct (IH (buffer_write written tx_buffer)) as [IHp IHl].
    unfold tx_payloads in *. rewrite omap_app, filter_app, length_app, IHp, IHl.
    cbn [fmap list_fmap]. rewrite filter_cons, Henc. cbn [fst snd].
    destruct status; split; reflexivity.
Qed.

End DispatchFacts.

(* ===================================================================== *)
(** * Enabling and configuring a motor *)
(* ===================================================================== *)

Section ConfigurationFacts.
Context {pid : PidCtrl}.
Implicit Types (motor : motor_handle_t) (env : hal_env).

(** X14. Of two calls of [set_motor_enabled] on a motor only the second
    counts: the result is that of the second call alone, the enable pin is
    an output at level 1 or 0 as asked, and every other pin keeps its
    direction and its level. *)
Theorem set_motor_enabled_last_wins motor (first second : bool) (gpio : gpio_state) :
  let gpio' := set_motor_enabled motor second (set_motor_enabled motor first gpio) in
  gpio' = set_motor_enabled motor second gpio
  /\ gpio_direction gpio' !! enable_pin motor = Some GPIO_MODE_OUTPUT
  /\ gpio_level gpio' !! enable_pin motor = Some (if second then 1 else 0)
  /\ (forall pin, pin <> enable_pin motor ->
        gpio_direction gpio' !! pin = gpio_direction gpio !! pin
        /\ gpio_level gpio' !! pin = gpio_level gpio !! pin).
Proof.
  unfold set_motor_enabled, gpio_set_direction, gpio_set_level.
  destruct first, second; cbn [gpio_direction gpio_level];
    rewrite !insert_insert_eq;
    (split; [reflexivity|]); cbn [gpio_direction gpio_level];
    rewrite !lookup_insert_eq; (split; [reflexivity|]); (split; [reflexivity|]);
    intros pin Hpin; rewrite !lookup_insert_ne by done; auto.
Qed.

Lemma timer_period :
  to_uint64 (F64.mul PID_LOOP_PERIOD_MS (F64.of_int 1000)) = Some 10000.
Proof. vm_compute. reflexivity. Qed.

(** Unfolds the configuration up to the next status it looks at. *)
Ltac next_status env :=
  match goal with
  | |- context [hal_status env ?call =? ESP_OK] =>
      destruct (Z.eqb_spec (hal_status env call) ESP_OK);
      cbn [mbind hal_bind mret hal_ret app]
  end.

(** X15. [configure_motor] makes its driver calls in one fixed order and
    stops at the first checked call that fails: the calls made are a prefix
    of the full list; when it completes it made all of them and every
    checked call answered [ESP_OK]; when it aborts, the status is not
    [ESP_OK] and is the one the last call made answered, and the periodic
    timer was not started; the conversion of the timer period is never
    undefined. *)
Theorem configure_motor_steps env motor
    (pwm_a_pin pwm_a_chan pwm_b_pin pwm_b_chan encoder_pin : Z) :
  let all_calls :=
    configure_motor_calls env pwm_a_pin pwm_a_chan pwm_b_pin pwm_b_chan encoder_pin in
  let '(calls, result) :=
    configure_motor env motor pwm_a_pin pwm_a_chan pwm_b_pin pwm_b_chan encoder_pin in
  calls `prefix_of` all_calls
  /\ match result with
     | Done motor' =>
         calls = all_calls
         /\ Forall (fun call => hal_status env call = ESP_OK)
              (List.filter is_checked all_calls)
     | Aborted err =>
         err <> ESP_OK
         /\ (exists call, last calls = Some call /\ hal_status env call = err)
         /\ filter (fun call => is_timer_start call = true) calls = []
     | Undefined => False
     end.
Proof.
  unfold configure_motor, configure_motor_calls, configure_pwm,
    hal_checked, hal_unchecked, ESP_ERROR_CHECK.
  rewrite timer_period. cbn [of_cast mbind hal_bind mret hal_ret app].
  repeat next_status env;
    (split; [eexists; reflexivity|]);
    try (split; [assumption|split; [eexists; split; [reflexivity|reflexivity]|reflexivity]]).
  split; [reflexivity|].
  cbn [List.filter is_checked]. repeat (constructor; [assumption|]). constructor.
Qed.

(** X16. When every checked driver call answers [ESP_OK], [configure_motor]
    completes after the full list of calls, the timer being started with a
    period of 10000 microseconds last, and the motor holds the channels
    given and the handles created, with its enable pin, encoder count,
    commanded velocity, reported speed and power command untouched. *)
Theorem configure_motor_success env motor
    (pwm_a_pin pwm_a_chan pwm_b_pin pwm_b_chan encoder_pin : Z) :
  Forall (fun call => hal_status env call = ESP_OK)
    (List.filter is_checked
       (configure_motor_calls env pwm_a_pin pwm_a_chan pwm_b_pin pwm_b_chan
          encoder_pin)) ->
  exists motor',
    configure_motor env motor pwm_a_pin pwm_a_chan pwm_b_pin pwm_b_chan encoder_pin
    = (configure_motor_calls env pwm_a_pin pwm_a_chan pwm_b_pin pwm_b_chan
         encoder_pin,
       Done motor')
    /\ chan_a motor' = pwm_a_chan
    /\ chan_b motor' = pwm_b_chan
    /\ encoder_unit (encoder motor') = new_pcnt_unit env
    /\ encoder_channel (encoder motor') = new_pcnt_channel env
    /\ pid_controller motor' = new_pid_block env
    /\ pid_timer motor' = new_timer env
    /\ count (encoder motor') = count (encoder motor)
    /\ cmd_velocity motor' = cmd_velocity motor
    /\ reported_speed motor' = reported_speed motor
    /\ cmd_power motor' = cmd_power motor
    /\ enable_pin motor' = enable_pin motor.
Proof.
  intros Hok. cbn [configure_motor_calls List.filter is_checked] in Hok.
  repeat match goal with
         | H : Forall _ (_ :: _) |- _ => apply Forall_cons in H as [? H]
         end.
  unfold configure_motor, configure_motor_calls, configure_pwm,
    hal_checked, hal_unchecked, ESP_ERROR_CHECK.
  rewrite timer_period. cbn [of_cast mbind hal_bind mret hal_ret app].
  repeat match goal with
         | H : hal_status env ?call = ESP_OK |- context [hal_status env ?call] =>
             rewrite H; clear H
         end.
  cbn [Z.eqb ESP_OK mbind hal_bind mret hal_ret app].
  eexists. split; [reflexivity|]. cbn. repeat split.
Qed.

End ConfigurationFacts.

(* ===================================================================== *)
(** * The agent address and the start of the socket tasks *)
(* ===================================================================== *)

(** X17. [get_agent_ip] returns [ESP_OK] or [ESP_FAIL], and [ESP_FAIL]
    exactly when the storage opened and the read of the address did not
    succeed; in particular it returns [ESP_OK] when the storage cannot be
    opened, leaving the address buffer as it was, and otherwise leaves the
    buffer as [nvs_get_str] left it. *)
Theorem get_agent_ip_result (nvs : nvs_t) (buffer : string) :
  let opened := nvs_open nvs "storage" in
  let read := nvs_get_str nvs opened.2 "uros_ag_ip" buffer AGENT_IP_size in
  let '(events, buffer', ret) := get_agent_ip nvs buffer in
  (ret = ESP_OK \/ ret = ESP_FAIL)
  /\ (ret = ESP_FAIL <-> opened.1 = ESP_OK /\ read.1 <> ESP_OK)
  /\ (opened.1 <> ESP_OK -> buffer' = buffer)
  /\ (opened.1 = ESP_OK -> buffer' = read.2).
Proof.
  unfold get_agent_ip.
  destruct (nvs_open nvs "storage") as [err handle]. cbn [fst snd].
  destruct (Z.eqb_spec err ESP_OK) as [-> | Herr]; cbn [negb].
  - destruct (nvs_get_str nvs handle "uros_ag_ip" buffer AGENT_IP_size)
      as [err' buffer']. cbn [fst snd].
    destruct (Z.eqb_spec err' ESP_OK) as [-> | Herr'];
      [|destruct (Z.eqb_spec err' ESP_ERR_NVS_NOT_FOUND)];
      (split; [auto|]); (split; [|split; [intros H; contradiction | reflexivity]]);
      (split; [intros H | intros [_ H]]); try discriminate H; try contradiction;
      auto.
  - split; [auto|]. split; [|split; [reflexivity | intros H; contradiction]].
    split; [intros H; discriminate H | intros [H _]; contradiction].
Qed.

(** X18. [get_agent_ip] closes what it opened: it starts by opening the
    storage; when that succeeds, it closes the handle exactly once, as the
    last thing it does, on every path; when it fails, it only logs the
    failure and neither reads nor closes. *)
Theorem get_agent_ip_closes (nvs : nvs_t) (buffer : string) :
  let opened := nvs_open nvs "storage" in
  let events := (get_agent_ip nvs buffer).1.1 in
  head events = Some (EvNvsOpen "storage")
  /\ (opened.1 = ESP_OK ->
      filter (fun ev => is_nvs_close ev = true) events = [EvNvsClose opened.2]
      /\ last events = Some (EvNvsClose opened.2))
  /\ (opened.1 <> ESP_OK ->
      events = [EvNvsOpen "storage"; EvLog (LogNvsOpenFailed opened.1)]).
Proof.
  unfold get_agent_ip.
  destruct (nvs_open nvs "storage") as [err handle]. cbn [fst snd].
  destruct (Z.eqb_spec err ESP_OK) as [-> | Herr]; cbn [negb].
  - destruct (nvs_get_str nvs handle "uros_ag_ip" buffer AGENT_IP_size)
      as [err' buffer'].
    destruct (err' =? ESP_OK); [|destruct (err' =? ESP_ERR_NVS_NOT_FOUND)];
      cbn; (split; [reflexivity|]); (split; [auto | intros H; contradiction]).
  - cbn. split; [reflexivity|]. split; [intros H; contradiction | reflexivity].
Qed.

Lemma get_agent_ip_polling (nvs : nvs_t) (buffer : string) :
  Forall is_polling_event (get_agent_ip nvs buffer).1.1.
Proof.
  unfold get_agent_ip.
  destruct (nvs_open nvs "storage") as [err handle].
  destruct (negb (err =? ESP_OK)); [repeat constructor|].
  destruct (nvs_get_str nvs handle "uros_ag_ip" buffer AGENT_IP_size)
    as [err' buffer'].
  destruct (err' =? ESP_OK); [|destruct (err' =? ESP_ERR_NVS_NOT_FOUND)];
    repeat constructor.
Qed.

Lemma poll_agent_ip_polling (attempts : list nvs_t) (buffer : string) :
  Forall is_polling_event (poll_agent_ip attempts buffer).1.
Proof.
  revert buffer. induction attempts as [|nvs attempts IH]; intros buffer.
  - constructor.
  - cbn [poll_agent_ip].
    pose proof (get_agent_ip_polling nvs buffer) as Hev.
    destruct (get_agent_ip nvs buffer) as [[events buffer'] err]. cbn [fst] in Hev.
    destruct (negb (err =? ESP_OK)); [|exact Hev].
    specialize (IH buffer').
    destruct (poll_agent_ip attempts buffer') as [rest result]. cbn [fst] in *.
    apply Forall_app. split; [exact Hev|]. constructor; [reflexivity | exact IH].
Qed.


Lemma get_agent_ip_delays (nvs : nvs_t) (buffer : string) :
  filter (fun ev => is_delay ev = true) (get_agent_ip nvs buffer).1.1 = [].
Proof.
  unfold get_agent_ip.
  destruct (nvs_open nvs "storage") as [err handle].
  destruct (negb (err =? ESP_OK)); [reflexivity|].
  destruct (nvs_get_str nvs handle "uros_ag_ip" buffer AGENT_IP_size)
    as [err' buffer'].
  destruct (err' =? ESP_OK); [|destruct (err' =? ESP_ERR_NVS_NOT_FOUND)];
    reflexivity.
Qed.

(** As long as every call of [get_agent_ip] fails, the loop keeps polling,
    with one delay of 500 ms per call. *)
Lemma poll_agent_ip_failing (attempts : list nvs_t) (buffer : string) :
  Forall (fun nvs => forall buffer, (get_agent_ip nvs buffer).2 <> ESP_OK) attempts ->
  (poll_agent_ip attempts buffer).2 = None
  /\ filter (fun ev => is_delay ev = true) (poll_agent_ip attempts buffer).1
     = replicate (length attempts) (EvTaskDelay 500).
Proof.
  intros Hall. revert buffer.
  induction Hall as [|nvs attempts Hfail _ IH]; intros buffer.
  - split; reflexivity.
  - cbn [poll_agent_ip].
    pose proof (get_agent_ip_delays nvs buffer) as Hdel.
    specialize (Hfail buffer).
    destruct (get_agent_ip nvs buffer) as [[events buffer'] err].
    cbn [fst snd] in *.
    destruct (Z.eqb_spec err ESP_OK) as [Heq | _]; [contradiction|]. cbn [negb].
    specialize (IH buffer').
    destruct (poll_agent_ip attempts buffer') as [rest result]. cbn [fst snd] in *.
    destruct IH as [-> IHl]. split; [reflexivity|].
    rewrite filter_app, Hdel, filter_cons_True by reflexivity.
    cbn [app length replicate]. rewrite IHl. reflexivity.
Qed.

(** X19. As long as [get_agent_ip] fails, the initialisation does nothing
    but poll: it does not complete, it waits 500 ms once per failed attempt, and
    apart from reporting the disconnected status it only calls the storage,
    logs and waits (no socket, no queue, no task). *)
Theorem socket_mgr_init_waits (attempts : list nvs_t) (net : net_env)
    (buffer : string) :
  Forall (fun nvs => forall buffer, (get_agent_ip nvs buffer).2 <> ESP_OK) attempts ->
  let '(events, state) := socket_mgr_init attempts net buffer in
  state = None
  /\ filter (fun ev => is_delay ev = true) events
     = replicate (length attempts) (EvTaskDelay 500)
  /\ Forall (fun ev => ev = EvSetStatus eAgentDisconnected \/ is_polling_event ev)
       events.
Proof.
  intros Hall. unfold socket_mgr_init.
  pose proof (poll_agent_ip_failing attempts buffer Hall) as [Hres Hlen].
  pose proof (poll_agent_ip_polling attempts buffer) as Hpoll.
  destruct (poll_agent_ip attempts buffer) as [polling result]. cbn [fst snd] in *.
  subst result. split; [reflexivity|]. split.
  - rewrite filter_cons_False by discriminate. exact Hlen.
  - constructor; [auto|]. eapply Forall_impl; [exact Hpoll|]. auto.
Qed.

(** The loop ends at the first call of [get_agent_ip] that succeeds. *)
Lemma poll_agent_ip_found (failing rest : list nvs_t) (good : nvs_t)
    (buffer : string) :
  Forall (fun nvs => forall buffer, (get_agent_ip nvs buffer).2 <> ESP_OK) failing ->
  (forall buffer, (get_agent_ip good buffer).2 = ESP_OK) ->
  exists address,
    (poll_agent_ip (failing ++ good :: rest) buffer).2 = Some address
    /\ length (filter (fun ev => is_delay ev = true)
                 (poll_agent_ip (failing ++ good :: rest) buffer).1)
       = length failing
    /\ poll_agent_ip (failing ++ good :: rest) buffer
       = poll_agent_ip (failing ++ [good]) buffer.
Proof.
  intros Hall Hgood. revert buffer.
  induction Hall as [|nvs failing Hfail _ IH]; intros buffer.
  - cbn [app poll_agent_ip].
    pose proof (get_agent_ip_delays good buffer) as Hdel.
    specialize (Hgood buffer).
    destruct (get_agent_ip good buffer) as [[events buffer'] err].
    cbn [fst snd] in *. subst err. cbn.
    exists buffer'. rewrite Hdel. auto.
  - cbn [app poll_agent_ip].
    pose proof (get_agent_ip_delays nvs buffer) as Hdel.
    specialize (Hfail buffer).
    destruct (get_agent_ip nvs buffer) as [[events buffer'] err].
    cbn [fst snd] in *.
    destruct (Z.eqb_spec err ESP_OK) as [Heq | _]; [contradiction|]. cbn [negb].
    destruct (IH buffer') as (address & Hres & Hlen & Heq).
    rewrite Heq in *.
    destruct (poll_agent_ip (failing ++ [good]) buffer') as [more result].
    cbn [fst snd] in *. exists address. split; [exact Hres|]. split; [|reflexivity].
    rewrite filter_app, Hdel, filter_cons_True by reflexivity.
    cbn [app length]. rewrite Hlen. reflexivity.
Qed.

(** X20. The initialisation stops polling at the first attempt at which
    [get_agent_ip] succeeds: after k failing attempts and one that succeeds
    it completes having waited exactly k times, and how the storage looks
    afterwards plays no part. *)
Theorem socket_mgr_init_found (failing rest : list nvs_t) (good : nvs_t)
    (net : net_env) (buffer : string) :
  Forall (fun nvs => forall buffer, (get_agent_ip nvs buffer).2 <> ESP_OK) failing ->
  (forall buffer, (get_agent_ip good buffer).2 = ESP_OK) ->
  exists state,
    (socket_mgr_init (failing ++ good :: rest) net buffer).2 = Some state
    /\ length (filter (fun ev => is_delay ev = true)
                 (socket_mgr_init (failing ++ good :: rest) net buffer).1)
       = length failing
    /\ socket_mgr_init (failing ++ good :: rest) net buffer
       = socket_mgr_init (failing ++ [good]) net buffer.
Proof.
  intros Hall Hgood.
  destruct (poll_agent_ip_found failing rest good buffer Hall Hgood)
    as (address & Hres & Hlen & Heq).
  unfold socket_mgr_init. rewrite Heq in *.
  destruct (poll_agent_ip (failing ++ [good]) buffer) as [polling result].
  cbn [fst snd] in *. subst result. eexists. split; [reflexivity|].
  split; [|reflexivity]. cbn [fst].
  rewrite filter_cons. cbn [is_delay].
  destruct (decide (false = true)) as [Hf|_]; [discriminate Hf|].
  rewrite filter_app, length_app, Hlen.
  destruct (socket_result net <? 0), (bind_result net (socket_result net) <? 0);
    match goal with |- (_ + ?n = _)%nat => change n with 0%nat end; lia.
Qed.


(** X22. When the storage cannot be opened at the first attempt, the
    initialisation does not wait or retry: it completes at once with the
    address buffer as it was, never having read the address. *)
Theorem socket_mgr_init_storage_unavailable (nvs : nvs_t) (rest : list nvs_t)
    (net : net_env) (buffer : string) :
  (nvs_open nvs "storage").1 <> ESP_OK ->
  exists state,
    (socket_mgr_init (nvs :: rest) net buffer).2 = Some state
    /\ AGENT_IP state = buffer
    /\ dest_addr state = (buffer, PORT)
    /\ filter (fun ev => is_delay ev = true)
         (socket_mgr_init (nvs :: rest) net buffer).1 = []
    /\ EvNvsGetStr (nvs_open nvs "storage").2 "uros_ag_ip"
         ∉ (socket_mgr_init (nvs :: rest) net buffer).1.
Proof.
  intros Hopen. unfold socket_mgr_init. cbn [poll_agent_ip]. unfold get_agent_ip.
  destruct (nvs_open nvs "storage") as [err handle]. cbn [fst snd] in *.
  destruct (Z.eqb_spec err ESP_OK) as [Heq | _]; [contradiction|]. cbn [negb].
  change (ESP_OK =? ESP_OK) with true. cbn [negb fst snd].
  eexists. split; [reflexivity|]. cbn [AGENT_IP dest_addr].
  split; [reflexivity|]. split; [reflexivity|]. split.
  - destruct (socket_result net <? 0), (bind_result net (socket_result net) <? 0);
      reflexivity.
  - intros Hin.
    destruct (socket_result net <? 0), (bind_result net (socket_result net) <? 0);
      cbn in Hin;
      repeat (apply elem_of_cons in Hin as [Hin | Hin]; [discriminate Hin|]);
      inversion Hin.
Qed.

(* ===================================================================== *)
(** * The further properties on examples *)
(* ===================================================================== *)

Lemma set_motor_power_frame_witness :
  exists hw',
    set_motor_power bench_motor half (bench_count 5) = Done hw'
    /\ pcnt_count hw' = pcnt_count (bench_count 5)
    /\ (forall channel,
          channel <> chan_a bench_motor -> channel <> chan_b bench_motor ->
          channel_duty hw' channel = channel_duty (bench_count 5) channel
          /\ channel_output hw' channel = channel_output (bench_count 5) channel)
    /\ (forall channel,
          channel <> encoder_channel (encoder bench_motor) ->
          edge_action hw' channel = edge_action (bench_count 5) channel).
Proof.
  eexists. split; [reflexivity|].
  apply (set_motor_power_frame (pid := sign_pid) bench_motor half (bench_count 5)).
  reflexivity.
Defined.

Lemma set_motor_power_last_wins_witness :
  exists hw1,
    set_motor_power bench_motor half hw_reset = Done hw1
    /\ set_motor_power bench_motor (F32.opp half) hw1
       = set_motor_power bench_motor (F32.opp half) hw_reset.
Proof.
  eexists. split; [reflexivity|].
  apply (set_motor_power_last_wins (pid := sign_pid) bench_motor half (F32.opp half)
           hw_reset).
  reflexivity.
Defined.

Lemma set_motor_power_opposite_witness :
  chan_a bench_motor <> chan_b bench_motor
  /\ exists hw1,
       set_motor_power bench_motor half hw_reset = Done hw1
       /\ exists hw2,
            set_motor_power bench_motor (F32.opp half) hw_reset = Done hw2
            /\ channel_duty hw2 (chan_a bench_motor) = channel_duty hw1 (chan_b bench_motor)
            /\ channel_duty hw2 (chan_b bench_motor) = channel_duty hw1 (chan_a bench_motor)
            /\ channel_output hw2 (chan_a bench_motor)
               = channel_output hw1 (chan_b bench_motor)
            /\ channel_output hw2 (chan_b bench_motor)
               = channel_output hw1 (chan_a bench_motor).
Proof.
  assert (Hne : chan_a bench_motor <> chan_b bench_motor) by (intros H; discriminate H).
  split; [exact Hne|].
  eexists. split; [reflexivity|].
  eapply (set_motor_power_opposite (pid := sign_pid) bench_motor half hw_reset _ Hne).
  reflexivity.
Defined.

Lemma set_motor_power_monotone_witness :
  (chan_a bench_motor <> chan_b bench_motor
   /\ F32.valid half = true
   /\ F32.valid (F32.of_int 1) = true
   /\ F32.ltb (F32.of_int 0) half = true
   /\ F32.leb half (F32.of_int 1) = true
   /\ F32.is_finite (F32.of_int 1) = true
   /\ pwm_steps (F32.of_int 1) < 2 ^ 32)
  /\ exists hw1 hw2,
       set_motor_power bench_motor half hw_reset = Done hw1
       /\ set_motor_power bench_motor (F32.of_int 1) hw_reset = Done hw2
       /\ channel_duty hw1 (chan_b bench_motor) <= channel_duty hw2 (chan_b bench_motor)
       /\ channel_output hw1 (chan_b bench_motor)
          <= channel_output hw2 (chan_b bench_motor).
Proof.
  assert (Hne : chan_a bench_motor <> chan_b bench_motor) by (intros H; discriminate H).
  split; [split; [exact Hne | repeat split]|].
  apply (set_motor_power_monotone (pid := sign_pid) bench_motor half (F32.of_int 1)
           hw_reset Hne); reflexivity.
Defined.

Lemma reported_speed_sign_witness :
  exists motor' hw',
    pid_callback bench_motor (bench_count (-5)) = Done (motor', hw')
    /\ float_sign (reported_speed motor')
       = Some (tick_pulses_elapsed bench_motor (bench_count (-5)) <? 0)
    /\ (F32.ltb (reported_speed motor') (F32.of_int 0) = true ->
        tick_pulses_elapsed bench_motor (bench_count (-5)) < 0)
    /\ (F32.ltb (F32.of_int 0) (reported_speed motor') = true ->
        0 < tick_pulses_elapsed bench_motor (bench_count (-5))).
Proof.
  destruct (pid_callback_done sign_pid_bounded bench_motor (bench_count (-5)))
    as (motor' & hw' & Hrun & _).
  exists motor', hw'. split; [exact Hrun|].
  apply (reported_speed_sign (pid := sign_pid) bench_motor (bench_count (-5)) motor' hw').
  exact Hrun.
Defined.

Lemma control_ticks_keep_setpoint_witness :
  exists deltas motor' hw',
    control_ticks [5; 12] (set_motor_velocity bench_motor half) hw_reset
    = Done (deltas, motor', hw')
    /\ cmd_velocity motor' = half
    /\ chan_a motor' = chan_a bench_motor
    /\ chan_b motor' = chan_b bench_motor
    /\ enable_pin motor' = enable_pin bench_motor
    /\ pid_timer motor' = pid_timer bench_motor
    /\ encoder_unit (encoder motor') = encoder_unit (encoder bench_motor)
    /\ encoder_channel (encoder motor') = encoder_channel (encoder bench_motor).
Proof.
  destruct (control_ticks_done sign_pid_bounded [5; 12]
              (set_motor_velocity bench_motor half) hw_reset)
    as (motor' & hw' & Hrun & _).
  eexists. exists motor', hw'. split; [exact Hrun|].
  eapply (control_ticks_keep_setpoint (pid := sign_pid) [5; 12] bench_motor half
            hw_reset _ motor' hw').
  exact Hrun.
Defined.

Lemma control_ticks_abort_witness :
  control_ticks [] unconfigured_motor hw_reset = Done ([], unconfigured_motor, hw_reset)
  /\ ESP_ERR_INVALID_ARG <> ESP_OK
  /\ control_ticks ([] ++ 5 :: [12]) unconfigured_motor hw_reset
     = Aborted ESP_ERR_INVALID_ARG.
Proof.
  assert (Herr : ESP_ERR_INVALID_ARG <> ESP_OK) by (intros H; discriminate H).
  split; [reflexivity|]. split; [exact Herr|].
  apply (control_ticks_abort (pid := checked_pid) [] [12] 5 unconfigured_motor hw_reset
           [] unconfigured_motor hw_reset ESP_ERR_INVALID_ARG false (F32.of_int 0));
    [reflexivity | reflexivity | exact Herr].
Defined.

Lemma control_ticks_settled_witness :
  (pid_output_bounded (pid := sign_pid)
   /\ chan_a bench_motor <> chan_b bench_motor
   /\ [5; 12] <> @nil Z)
  /\ exists deltas motor' hw',
       control_ticks [5; 12] bench_motor hw_reset = Done (deltas, motor', hw')
       /\ actuator_settled bench_motor hw'
       /\ F32.leb (F32.of_int (-1)) (cmd_power motor') = true
       /\ F32.leb (cmd_power motor') (F32.of_int 1) = true.
Proof.
  assert (Hne : chan_a bench_motor <> chan_b bench_motor) by (intros H; discriminate H).
  assert (Hcounts : [5; 12] <> @nil Z) by (intros H; discriminate H).
  split; [split; [exact sign_pid_bounded | split; [exact Hne | exact Hcounts]]|].
  destruct (control_ticks_done sign_pid_bounded [5; 12] bench_motor hw_reset)
    as (motor' & hw' & Hrun & _).
  eexists. exists motor', hw'. split; [exact Hrun|].
  eapply (control_ticks_settled (pid := sign_pid) [5; 12] bench_motor hw_reset _
            motor' hw' sign_pid_bounded Hne Hcounts).
  exact Hrun.
Defined.

Lemma register_callback_last_wins_witness :
  length rx_callbacks_init = MAX_RX_CALLBACKS
  /\ rx_iteration (pb := Wire.schema)
       (register_callback 9 eTwistCmd (register_callback 7 eTwistCmd rx_callbacks_init))
       (RecvDatagram Wire.twist_datagram)
     = ([RxCallback (pb := Wire.schema) 9
           {| Wire.linear := [Byte.x00; Byte.x00; Byte.x80; Byte.x3f];
              Wire.angular := Wire.word_zero |}],
        RxContinue)
  /\ length (register_callback 9 eTwistCmd
               (register_callback 7 eTwistCmd rx_callbacks_init))
     = MAX_RX_CALLBACKS.
Proof.
  split; [reflexivity|].
  apply (register_callback_last_wins (pb := Wire.schema) rx_callbacks_init
           Wire.twist_datagram 7 9
           {| Wire.bytes_left := tail Wire.twist_datagram; Wire.errmsg := "(none)" |}
           {| Wire.bytes_left := []; Wire.errmsg := "(none)" |}
           true
           {| Wire.linear := [Byte.x00; Byte.x00; Byte.x80; Byte.x3f];
              Wire.angular := Wire.word_zero |}); reflexivity.
Defined.

Lemma socket_rx_task_null_callback_witness :
  socket_rx_task (pb := Wire.schema) rx_callbacks_init [RecvDatagram [Byte.x02]]
  = ([RxLog (LogDecodeFailed "(none)")], RxBlocked)
  /\ socket_rx_task (pb := Wire.schema) rx_callbacks_init
       ([RecvDatagram [Byte.x02]]
          ++ RecvDatagram Wire.twist_datagram :: [RecvDatagram Wire.twist_datagram])
     = ([RxLog (LogDecodeFailed "(none)")], RxCrashed).
Proof.
  split; [reflexivity|].
  apply (socket_rx_task_null_callback (pb := Wire.schema) [RecvDatagram [Byte.x02]]
           [RecvDatagram Wire.twist_datagram] Wire.twist_datagram
           [RxLog (LogDecodeFailed "(none)")]
           {| Wire.bytes_left := tail Wire.twist_datagram; Wire.errmsg := "(none)" |});
    reflexivity.
Defined.

Lemma socket_rx_task_in_order_witness :
  bench_callbacks !! rx_index eTwistCmd = Some (Some 7%nat)
  /\ socket_rx_task (pb := Wire.schema) bench_callbacks
       (RecvDatagram <$> [Wire.twist_datagram; Byte.x01 :: Wire.oversize_packet])
     = (RxCallback (pb := Wire.schema) 7
          <$> [ {| Wire.linear := [Byte.x00; Byte.x00; Byte.x80; Byte.x3f];
                   Wire.angular := Wire.word_zero |};
                {| Wire.linear := replicate 4 Byte.x07;
                   Wire.angular := replicate 4 Byte.x07 |} ],
        RxBlocked).
Proof.
  split; [reflexivity|].
  apply (socket_rx_task_in_order (pb := Wire.schema) bench_callbacks 7);
    [reflexivity|].
  repeat constructor; eexists _, _; split; vm_compute; reflexivity.
Defined.

Lemma socket_rx_task_no_twist_witness :
  Forall (not_twist (pb := Wire.schema))
    [RecvDatagram [Byte.x02]; RecvDatagram []; RecvFailed 11]
  /\ filter (fun ev => is_callback ev = true)
       (socket_rx_task (pb := Wire.schema) bench_callbacks
          [RecvDatagram [Byte.x02]; RecvDatagram []; RecvFailed 11]).1 = []
  /\ (socket_rx_task (pb := Wire.schema) bench_callbacks
        [RecvDatagram [Byte.x02]; RecvDatagram []; RecvFailed 11]).2 <> RxCrashed.
Proof.
  assert (Hall : Forall (not_twist (pb := Wire.schema))
                   [RecvDatagram [Byte.x02]; RecvDatagram []; RecvFailed 11]).
  { repeat constructor; intros H; discriminate H. }
  split; [exact Hall|].
  apply (socket_rx_task_no_twist (pb := Wire.schema) bench_callbacks _ Hall).
Defined.

Lemma configure_motor_success_witness :
  Forall (fun call => hal_status bench_hal call = ESP_OK)
    (List.filter is_checked (configure_motor_calls bench_hal 25 0 26 1 34))
  /\ exists motor',
       configure_motor bench_hal bench_motor 25 0 26 1 34
       = (configure_motor_calls bench_hal 25 0 26 1 34, Done motor')
       /\ chan_a motor' = 0
       /\ chan_b motor' = 1
       /\ encoder_unit (encoder motor') = new_pcnt_unit bench_hal
       /\ encoder_channel (encoder motor') = new_pcnt_channel bench_hal
       /\ pid_controller motor' = new_pid_block bench_hal
       /\ pid_timer motor' = new_timer bench_hal
       /\ count (encoder motor') = count (encoder bench_motor)
       /\ cmd_velocity motor' = cmd_velocity bench_motor
       /\ reported_speed motor' = reported_speed bench_motor
       /\ cmd_power motor' = cmd_power bench_motor
       /\ enable_pin motor' = enable_pin bench_motor.
Proof.
  assert (Hok : Forall (fun call => hal_status bench_hal call = ESP_OK)
                  (List.filter is_checked (configure_motor_calls bench_hal 25 0 26 1 34))).
  { apply Forall_forall. intros call _. reflexivity. }
  split; [exact Hok|].
  apply (configure_motor_success (pid := sign_pid) bench_hal bench_motor 25 0 26 1 34 Hok).
Defined.

Lemma socket_mgr_init_waits_witness :
  Forall (fun nvs => forall buffer, (get_agent_ip nvs buffer).2 <> ESP_OK)
    [nvs_store None; nvs_store None; nvs_store None]
  /\ let '(events, state) :=
       socket_mgr_init [nvs_store None; nvs_store None; nvs_store None] bench_net "" in
     state = None
     /\ filter (fun ev => is_delay ev = true) events
        = [EvTaskDelay 500; EvTaskDelay 500; EvTaskDelay 500]
     /\ Forall (fun ev => ev = EvSetStatus eAgentDisconnected \/ is_polling_event ev)
          events.
Proof.
  assert (Hall : Forall (fun nvs => forall buffer, (get_agent_ip nvs buffer).2 <> ESP_OK)
                   [nvs_store None; nvs_store None; nvs_store None]).
  { repeat constructor; intros buffer H; discriminate H. }
  split; [exact Hall|].
  apply (socket_mgr_init_waits [nvs_store None; nvs_store None; nvs_store None]
           bench_net "" Hall).
Defined.

Lemma socket_mgr_init_found_witness :
  (Forall (fun nvs => forall buffer, (get_agent_ip nvs buffer).2 <> ESP_OK)
     [nvs_store None; nvs_store None]
   /\ forall buffer, (get_agent_ip (nvs_store (Some "192.168.4.2")) buffer).2 = ESP_OK)
  /\ exists state,
       (socket_mgr_init
          ([nvs_store None; nvs_store None]
             ++ nvs_store (Some "192.168.4.2") :: [nvs_unavailable])
          bench_net "").2 = Some state
       /\ length (filter (fun ev => is_delay ev = true)
                    (socket_mgr_init
                       ([nvs_store None; nvs_store None]
                          ++ nvs_store (Some "192.168.4.2") :: [nvs_unavailable])
                       bench_net "").1)
          = length [nvs_store None; nvs_store None]
       /\ socket_mgr_init
            ([nvs_store None; nvs_store None]
               ++ nvs_store (Some "192.168.4.2") :: [nvs_unavailable])
            bench_net ""
          = socket_mgr_init
              ([nvs_store None; nvs_store None] ++ [nvs_store (Some "192.168.4.2")])
              bench_net "".
Proof.
  assert (Hall : Forall (fun nvs => forall buffer, (get_agent_ip nvs buffer).2 <> ESP_OK)
                   [nvs_store None; nvs_store None]).
  { repeat constructor; intros buffer H; discriminate H. }
  assert (Hgood : forall buffer,
             (get_agent_ip (nvs_store (Some "192.168.4.2")) buffer).2 = ESP_OK).
  { intros buffer. reflexivity. }
  split; [split; [exact Hall | exact Hgood]|].
  apply (socket_mgr_init_found [nvs_store None; nvs_store None] [nvs_unavailable]
           (nvs_store (Some "192.168.4.2")) bench_net "" Hall Hgood).
Defined.


Lemma socket_mgr_init_storage_unavailable_witness :
  (nvs_open nvs_unavailable "storage").1 <> ESP_OK
  /\ exists state,
       (socket_mgr_init [nvs_unavailable] bench_net "").2 = Some state
       /\ AGENT_IP state = ""
       /\ dest_addr state = ("", PORT)
       /\ filter (fun ev => is_delay ev = true)
            (socket_mgr_init [nvs_unavailable] bench_net "").1 = []
       /\ EvNvsGetStr (nvs_open nvs_unavailable "storage").2 "uros_ag_ip"
            ∉ (socket_mgr_init [nvs_unavailable] bench_net "").1.
Proof.
  assert (Hopen : (nvs_open nvs_unavailable "storage").1 <> ESP_OK)
    by (intros H; discriminate H).
  split; [exact Hopen|].
  apply (socket_mgr_init_storage_unavailable nvs_unavailable [] bench_net "" Hopen).
Defined.
